(** * DDP-24 emulator (Viking Mars lander guidance computer)

    A shallow embedding of the processor model of [src/ddp24.c] and
    [include/ddp24.h]: the 24-bit sign-magnitude word, the 32K-word core
    store, instruction decode, effective-address computation and the
    [ddp24_step] dispatcher, followed by the properties of the processor
    that the specification states.

    Conventions.
    - [word_t] is [uint32_t]: a register or memory cell is a [Z]; where the
      C arithmetic can leave the 32-bit range, the wrap-around is written
      out with [wrap32] (and [wrap64] for the [uint64_t] cycle counter).
    - The arrays [memory[MEM_SIZE]] and [X[4]] are lists, read with list
      lookup and updated with list insert.  Every index the C code uses is
      masked into range first, so an out-of-range access never happens on a
      state whose arrays have their declared length.
    - [ddp24_step] calls itself in the XEC case.  The embedding is a
      fixpoint on a recursion budget [fuel] which only the nested call
      consumes: [fuel] is the number of nested activations available, and
      [None] means that the budget ran out. *)

From Stdlib Require Import ZArith Lia Bool.
From Stdlib Require Strings.Byte.
From stdpp Require Import base list.

Local Open Scope Z_scope.

(** ** Words and masks ([ddp24.h]) *)

Definition WORD_MASK : Z := 0x00FFFFFF.
Definition SIGN_BIT : Z := 0x00800000.
Definition MAGNITUDE_MASK : Z := 0x007FFFFF.

Definition OP_SHIFT : Z := 18.
Definition OP_MASK : Z := 0x3F.
Definition INDIRECT_BIT : Z := Z.shiftl 1 17.
Definition INDEX_SHIFT : Z := 15.
Definition INDEX_MASK : Z := 0x03.
Definition ADDR_MASK : Z := 0x7FFF.

Definition MEM_SIZE : Z := 32768.

(** Unsigned conversions of the host: [uint32_t] and [uint64_t]. *)
Definition wrap32 (z : Z) : Z := z mod 2 ^ 32.
Definition wrap64 (z : Z) : Z := z mod 2 ^ 64.

(** ** Opcodes

    The header gives the opcodes in octal; [oct d1 d0] is the two-digit
    octal numeral [0d1d0]. *)

Definition oct (d1 d0 : Z) : Z := 8 * d1 + d0.

Definition OP_HLT : Z := oct 0 0.
Definition OP_XEC : Z := oct 0 2.
Definition OP_STB : Z := oct 0 3.
Definition OP_STA : Z := oct 0 5.
Definition OP_ADD : Z := oct 1 0.
Definition OP_SUB : Z := oct 1 1.
Definition OP_SKG : Z := oct 1 2.
Definition OP_SKN : Z := oct 1 3.
Definition OP_ANA : Z := oct 1 5.
Definition OP_ORA : Z := oct 1 6.
Definition OP_ERA : Z := oct 1 7.
Definition OP_LDB : Z := oct 2 3.
Definition OP_LDA : Z := oct 2 4.
Definition OP_JSL : Z := oct 2 7.
Definition OP_MPY : Z := oct 3 4.
Definition OP_DIV : Z := oct 3 5.
Definition OP_ARS : Z := oct 4 0.
Definition OP_ALS : Z := oct 4 1.
Definition OP_TAB : Z := oct 5 5.
Definition OP_LDX : Z := oct 5 6.
Definition OP_IAB : Z := oct 5 7.
Definition OP_SIX : Z := oct 6 6.
Definition OP_JPL : Z := oct 7 0.
Definition OP_JZE : Z := oct 7 1.
Definition OP_JMI : Z := oct 7 2.
Definition OP_JNZ : Z := oct 7 3.
Definition OP_JMP : Z := oct 7 4.
Definition OP_NOP : Z := oct 7 7.

(** Members of [opcode_t] that [ddp24_step] has no case for (a sample). *)
Definition OP_STC : Z := oct 0 4.
Definition OP_NRM : Z := oct 4 6.
Definition OP_RIX : Z := oct 6 7.

(** The case labels of the switch in [ddp24_step], in source order. *)
Definition implemented_opcodes : list Z :=
  [ OP_HLT; OP_NOP; OP_LDA; OP_LDB; OP_STA; OP_STB; OP_ADD; OP_SUB;
    OP_MPY; OP_DIV; OP_ANA; OP_ORA; OP_ERA; OP_JMP; OP_JPL; OP_JMI;
    OP_JZE; OP_JNZ; OP_JSL; OP_SKG; OP_SKN; OP_TAB; OP_IAB; OP_LDX;
    OP_SIX; OP_ARS; OP_ALS; OP_XEC ].

Definition implemented (op : Z) : bool :=
  existsb (Z.eqb op) implemented_opcodes.

(** ** CPU state ([ddp24_t]) *)

Record ddp24_t : Type := mk_ddp24 {
  A : Z;
  B : Z;
  X : list Z;
  PC : Z;
  memory : list Z;
  overflow : bool;
  halted : bool;
  interrupt_enabled : bool;
  cycles : Z
}.

(** Field assignments [cpu->f = v]. *)

Definition set_A (v : Z) (cpu : ddp24_t) : ddp24_t :=
  mk_ddp24 v (B cpu) (X cpu) (PC cpu) (memory cpu)
           (overflow cpu) (halted cpu) (interrupt_enabled cpu) (cycles cpu).

Definition set_B (v : Z) (cpu : ddp24_t) : ddp24_t :=
  mk_ddp24 (A cpu) v (X cpu) (PC cpu) (memory cpu)
           (overflow cpu) (halted cpu) (interrupt_enabled cpu) (cycles cpu).

Definition set_X (v : list Z) (cpu : ddp24_t) : ddp24_t :=
  mk_ddp24 (A cpu) (B cpu) v (PC cpu) (memory cpu)
           (overflow cpu) (halted cpu) (interrupt_enabled cpu) (cycles cpu).

Definition set_PC (v : Z) (cpu : ddp24_t) : ddp24_t :=
  mk_ddp24 (A cpu) (B cpu) (X cpu) v (memory cpu)
           (overflow cpu) (halted cpu) (interrupt_enabled cpu) (cycles cpu).

Definition set_memory (v : list Z) (cpu : ddp24_t) : ddp24_t :=
  mk_ddp24 (A cpu) (B cpu) (X cpu) (PC cpu) v
           (overflow cpu) (halted cpu) (interrupt_enabled cpu) (cycles cpu).

Definition set_overflow (v : bool) (cpu : ddp24_t) : ddp24_t :=
  mk_ddp24 (A cpu) (B cpu) (X cpu) (PC cpu) (memory cpu)
           v (halted cpu) (interrupt_enabled cpu) (cycles cpu).

Definition set_halted (v : bool) (cpu : ddp24_t) : ddp24_t :=
  mk_ddp24 (A cpu) (B cpu) (X cpu) (PC cpu) (memory cpu)
           (overflow cpu) v (interrupt_enabled cpu) (cycles cpu).

Definition set_interrupt_enabled (v : bool) (cpu : ddp24_t) : ddp24_t :=
  mk_ddp24 (A cpu) (B cpu) (X cpu) (PC cpu) (memory cpu)
           (overflow cpu) (halted cpu) v (cycles cpu).

Definition set_cycles (v : Z) (cpu : ddp24_t) : ddp24_t :=
  mk_ddp24 (A cpu) (B cpu) (X cpu) (PC cpu) (memory cpu)
           (overflow cpu) (halted cpu) (interrupt_enabled cpu) v.

(** Array subscripts [a[i]] and [a[i] = v] with an integer index. *)

Definition sub (a : list Z) (i : Z) : Z := default 0 (a !! Z.to_nat i).

Definition upd (a : list Z) (i : Z) (v : Z) : list Z := <[Z.to_nat i := v]> a.

(** ** Sign-magnitude helpers *)

Definition to_signed (w : Z) : Z :=
  let w := Z.land w WORD_MASK in
  if negb (Z.land w SIGN_BIT =? 0) then - Z.land w MAGNITUDE_MASK
  else Z.land w MAGNITUDE_MASK.

Definition from_signed (v : Z) : Z :=
  if v <? 0 then Z.lor SIGN_BIT (Z.land (- v) MAGNITUDE_MASK)
  else Z.land v MAGNITUDE_MASK.

(** ** Construction, reset, memory access *)

Definition ddp24_init : ddp24_t :=
  mk_ddp24 0 0 (replicate 4 0) 0 (replicate (Z.to_nat MEM_SIZE) 0)
           false false false 0.

Definition ddp24_reset (cpu : ddp24_t) : ddp24_t :=
  let cpu := set_A 0 cpu in
  let cpu := set_B 0 cpu in
  let cpu := set_X (upd (X cpu) 0 0) cpu in
  let cpu := set_X (upd (X cpu) 1 0) cpu in
  let cpu := set_X (upd (X cpu) 2 0) cpu in
  let cpu := set_X (upd (X cpu) 3 0) cpu in
  let cpu := set_PC 0 cpu in
  let cpu := set_halted false cpu in
  let cpu := set_overflow false cpu in
  let cpu := set_interrupt_enabled false cpu in
  set_cycles 0 cpu.

Definition ddp24_read (cpu : ddp24_t) (addr : Z) : Z :=
  let addr := Z.land addr (MEM_SIZE - 1) in
  Z.land (sub (memory cpu) addr) WORD_MASK.

Definition ddp24_write (cpu : ddp24_t) (addr value : Z) : ddp24_t :=
  let addr := Z.land addr (MEM_SIZE - 1) in
  set_memory (upd (memory cpu) addr (Z.land value WORD_MASK)) cpu.

(** ** Instruction decode *)

Definition decode_opcode (instr : Z) : Z :=
  Z.land (Z.shiftr instr OP_SHIFT) OP_MASK.

Definition decode_indirect (instr : Z) : bool :=
  negb (Z.land instr INDIRECT_BIT =? 0).

Definition decode_index (instr : Z) : Z :=
  Z.land (Z.shiftr instr INDEX_SHIFT) INDEX_MASK.

Definition decode_address (instr : Z) : Z :=
  Z.land instr ADDR_MASK.

(** ** Effective address *)

Definition effective_address (cpu : ddp24_t) (instr : Z) : Z :=
  let addr := decode_address instr in
  let idx := decode_index instr in
  let addr :=
    if 0 <? idx then Z.land (wrap32 (addr + sub (X cpu) idx)) ADDR_MASK
    else addr in
  let addr :=
    if decode_indirect instr then Z.land (ddp24_read cpu addr) ADDR_MASK
    else addr in
  addr.

(** ** The dispatcher

    [execute] is the [switch (op)] of [ddp24_step]; it receives the state
    after the fetch (PC already advanced), the fetched word, its opcode and
    effective address, and returns the state after the case together with
    the local [cycles].  [nested] stands for the recursive call
    [ddp24_step(cpu)] of the XEC case; it is the only case that can fail to
    return. *)

Definition sign_set (w : Z) : bool := negb (Z.land w SIGN_BIT =? 0).

Definition execute (nested : ddp24_t -> option (ddp24_t * Z))
    (op instr ea : Z) (cpu : ddp24_t) : option (ddp24_t * Z) :=
  if op =? OP_HLT then
    let cpu := set_halted true cpu in
    let cpu := set_PC (Z.land (wrap32 (PC cpu - 1)) ADDR_MASK) cpu in
    Some (cpu, 5)
  else if op =? OP_NOP then
    Some (cpu, 5)
  else if op =? OP_LDA then
    Some (set_A (ddp24_read cpu ea) cpu, 10)
  else if op =? OP_LDB then
    Some (set_B (ddp24_read cpu ea) cpu, 10)
  else if op =? OP_STA then
    Some (ddp24_write cpu ea (A cpu), 10)
  else if op =? OP_STB then
    Some (ddp24_write cpu ea (B cpu), 10)
  else if op =? OP_ADD then
    let operand := ddp24_read cpu ea in
    let sa := to_signed (A cpu) in
    let sb := to_signed operand in
    let result := sa + sb in
    let cpu :=
      if (0x7FFFFF <? result) || (result <? - 0x7FFFFF)
      then set_overflow true cpu else cpu in
    Some (set_A (from_signed result) cpu, 10)
  else if op =? OP_SUB then
    let operand := ddp24_read cpu ea in
    let sa := to_signed (A cpu) in
    let sb := to_signed operand in
    let result := sa - sb in
    let cpu :=
      if (0x7FFFFF <? result) || (result <? - 0x7FFFFF)
      then set_overflow true cpu else cpu in
    Some (set_A (from_signed result) cpu, 10)
  else if op =? OP_MPY then
    let operand := ddp24_read cpu ea in
    let b_mag := Z.land (B cpu) MAGNITUDE_MASK in
    let y_mag := Z.land operand MAGNITUDE_MASK in
    let b_neg := sign_set (B cpu) in
    let y_neg := sign_set operand in
    let result_neg := xorb b_neg y_neg in
    let product := wrap64 (b_mag * y_mag) in
    let a_mag := Z.land (Z.shiftr product 23) MAGNITUDE_MASK in
    let new_b_mag := Z.land product MAGNITUDE_MASK in
    let nonzero := negb (a_mag =? 0) || negb (new_b_mag =? 0) in
    let cpu :=
      set_A (if result_neg && nonzero then Z.lor SIGN_BIT a_mag else a_mag)
            cpu in
    let cpu :=
      set_B (if result_neg && nonzero then Z.lor SIGN_BIT new_b_mag
             else new_b_mag) cpu in
    Some (cpu, 28)
  else if op =? OP_DIV then
    let operand := ddp24_read cpu ea in
    let divisor_mag := Z.land operand MAGNITUDE_MASK in
    let a_mag := Z.land (A cpu) MAGNITUDE_MASK in
    let dividend_neg := sign_set (A cpu) in
    let divisor_neg := sign_set operand in
    if divisor_mag <=? a_mag then
      Some (set_overflow true cpu, 44)
    else
      let dividend :=
        Z.lor (wrap64 (Z.shiftl (Z.land (A cpu) MAGNITUDE_MASK) 23))
              (Z.land (B cpu) MAGNITUDE_MASK) in
      let quotient := wrap32 (dividend / divisor_mag) in
      let remainder := wrap32 (dividend mod divisor_mag) in
      let quotient_neg := xorb dividend_neg divisor_neg in
      let cpu :=
        set_B (if quotient_neg && negb (quotient =? 0)
               then Z.lor SIGN_BIT quotient else quotient) cpu in
      let cpu :=
        set_A (if dividend_neg && negb (remainder =? 0)
               then Z.lor SIGN_BIT remainder else remainder) cpu in
      Some (cpu, 44)
  else if op =? OP_ANA then
    let operand := ddp24_read cpu ea in
    Some (set_A (Z.land (Z.land (A cpu) operand) WORD_MASK) cpu, 10)
  else if op =? OP_ORA then
    let operand := ddp24_read cpu ea in
    Some (set_A (Z.land (Z.lor (A cpu) operand) WORD_MASK) cpu, 10)
  else if op =? OP_ERA then
    let operand := ddp24_read cpu ea in
    Some (set_A (Z.land (Z.lxor (A cpu) operand) WORD_MASK) cpu, 10)
  else if op =? OP_JMP then
    Some (set_PC ea cpu, 5)
  else if op =? OP_JPL then
    let cpu :=
      if negb (sign_set (A cpu))
         && negb (Z.land (A cpu) MAGNITUDE_MASK =? 0)
      then set_PC ea cpu else cpu in
    Some (cpu, 6)
  else if op =? OP_JMI then
    let cpu := if sign_set (A cpu) then set_PC ea cpu else cpu in
    Some (cpu, 6)
  else if op =? OP_JZE then
    let cpu :=
      if Z.land (A cpu) MAGNITUDE_MASK =? 0 then set_PC ea cpu else cpu in
    Some (cpu, 6)
  else if op =? OP_JNZ then
    let cpu :=
      if negb (Z.land (A cpu) MAGNITUDE_MASK =? 0)
      then set_PC ea cpu else cpu in
    Some (cpu, 6)
  else if op =? OP_JSL then
    let cpu := ddp24_write cpu ea (PC cpu) in
    let cpu := set_PC (Z.land (wrap32 (ea + 1)) ADDR_MASK) cpu in
    Some (cpu, 10)
  else if op =? OP_SKG then
    let operand := ddp24_read cpu ea in
    let cpu :=
      if to_signed operand <? to_signed (A cpu)
      then set_PC (Z.land (wrap32 (PC cpu + 1)) ADDR_MASK) cpu else cpu in
    Some (cpu, 10)
  else if op =? OP_SKN then
    let operand := ddp24_read cpu ea in
    let cpu :=
      if negb (A cpu =? operand)
      then set_PC (Z.land (wrap32 (PC cpu + 1)) ADDR_MASK) cpu else cpu in
    Some (cpu, 10)
  else if op =? OP_TAB then
    Some (set_B (A cpu) cpu, 5)
  else if op =? OP_IAB then
    let operand := A cpu in
    let cpu := set_A (B cpu) cpu in
    let cpu := set_B operand cpu in
    Some (cpu, 10)
  else if op =? OP_LDX then
    let idx := decode_index instr in
    let cpu :=
      if 0 <? idx
      then set_X (upd (X cpu) idx (Z.land (ddp24_read cpu ea) ADDR_MASK)) cpu
      else cpu in
    Some (cpu, 5)
  else if op =? OP_SIX then
    let idx := decode_index instr in
    Some (ddp24_write cpu ea (sub (X cpu) idx), 10)
  else if op =? OP_ARS then
    let count := Z.land ea 0x1F in
    let sign := Z.land (A cpu) SIGN_BIT in
    let cpu :=
      set_A (Z.lor sign (Z.shiftr (Z.land (A cpu) MAGNITUDE_MASK) count))
            cpu in
    Some (cpu, 5 + Z.land ea 0x1F)
  else if op =? OP_ALS then
    let count := Z.land ea 0x1F in
    let sign := Z.land (A cpu) SIGN_BIT in
    let cpu :=
      set_A (Z.lor sign
               (Z.land
                  (wrap32 (Z.shiftl (Z.land (A cpu) MAGNITUDE_MASK) count))
                  MAGNITUDE_MASK)) cpu in
    Some (cpu, 5 + Z.land ea 0x1F)
  else if op =? OP_XEC then
    let cpu := set_PC (Z.land (wrap32 (ea + 1)) ADDR_MASK) cpu in
    match nested cpu with
    | Some (cpu, c) => Some (cpu, 5 + c)
    | None => None
    end
  else
    (* default: the diagnostic goes to stderr; cycles keeps its initial 5 *)
    Some (set_halted true cpu, 5).

(** ** One step

    [ddp24_step fuel cpu] is [Some (cpu', c)] when the call returns [c]
    leaving the processor in [cpu'], and [None] when it needs more than
    [fuel] nested activations. *)

Fixpoint ddp24_step (fuel : nat) (cpu : ddp24_t) {struct fuel}
    : option (ddp24_t * Z) :=
  if halted cpu then Some (cpu, 0)
  else
    let instr := ddp24_read cpu (PC cpu) in
    let cpu := set_PC (Z.land (wrap32 (PC cpu + 1)) ADDR_MASK) cpu in
    let op := decode_opcode instr in
    let ea := effective_address cpu instr in
    let nested :=
      match fuel with
      | O => fun _ => None
      | S fuel' => ddp24_step fuel'
      end in
    match execute nested op instr ea cpu with
    | Some (cpu, c) => Some (set_cycles (wrap64 (cycles cpu + c)) cpu, c)
    | None => None
    end.

(** The recursive call available to an activation that has [fuel] nested
    activations left. *)
Definition nested_call (fuel : nat) : ddp24_t -> option (ddp24_t * Z) :=
  match fuel with
  | O => fun _ => None
  | S fuel' => ddp24_step fuel'
  end.

(** The call returns: some recursion budget suffices. *)
Definition terminates (cpu : ddp24_t) : Prop :=
  exists fuel r, ddp24_step fuel cpu = Some r.

(** ** Test-program idioms ([main.c])

    [(op << OP_SHIFT) | addr], and a processor whose memory holds the given
    words at the given addresses. *)

Definition instr_word (op addr : Z) : Z := Z.lor (Z.shiftl op OP_SHIFT) addr.

Definition load_words (cpu : ddp24_t) (ws : list (Z * Z)) : ddp24_t :=
  fold_left (fun c aw => ddp24_write c (fst aw) (snd aw)) ws cpu.

(** ** Vocabulary of the properties *)

(** [fits n w]: [w] is an unsigned [n]-bit value. *)
Definition fits (n w : Z) : Prop := 0 <= w < 2 ^ n.

(** The machine-width invariant, field by field. *)
Definition machine_width (cpu : ddp24_t) : Prop :=
  fits 24 (A cpu) /\ fits 24 (B cpu) /\
  (forall i, 0 <= i < MEM_SIZE ->
     exists w, memory cpu !! Z.to_nat i = Some w /\ fits 24 w) /\
  fits 15 (PC cpu) /\
  (forall i, 1 <= i <= 3 ->
     exists x, X cpu !! Z.to_nat i = Some x /\ fits 15 x) /\
  X cpu !! 0%nat = Some 0.

(** The same invariant in the form that is preserved step by step: the two
    arrays keep their declared length and every cell its width. *)
Record wf (cpu : ddp24_t) : Prop := mk_wf {
  wf_A : fits 24 (A cpu);
  wf_B : fits 24 (B cpu);
  wf_memory : Forall (fits 24) (memory cpu);
  wf_memory_len : length (memory cpu) = Z.to_nat MEM_SIZE;
  wf_PC : fits 15 (PC cpu);
  wf_X : Forall (fits 15) (X cpu);
  wf_X_len : length (X cpu) = 4%nat;
  wf_X0 : X cpu !! 0%nat = Some 0
}.

(** States a driver can reach through the interface: construct, reset,
    write, and every step that returns.  ([ddp24_read] does not change the
    state.) *)
Inductive reachable : ddp24_t -> Prop :=
  | reach_init : reachable ddp24_init
  | reach_reset cpu : reachable cpu -> reachable (ddp24_reset cpu)
  | reach_write cpu addr value :
      reachable cpu -> reachable (ddp24_write cpu addr value)
  | reach_step cpu fuel cpu' c :
      reachable cpu -> ddp24_step fuel cpu = Some (cpu', c) ->
      reachable cpu'.

(** What an observer sees of a processor: registers, memory and flags. *)
Definition observable (cpu : ddp24_t)
    : Z * Z * list Z * Z * list Z * bool * bool * bool :=
  (A cpu, B cpu, X cpu, PC cpu, memory cpu,
   overflow cpu, halted cpu, interrupt_enabled cpu).

(** The word the next step fetches, its opcode and effective address. *)
Definition fetched (cpu : ddp24_t) : Z := ddp24_read cpu (PC cpu).

Definition fetched_opcode (cpu : ddp24_t) : Z := decode_opcode (fetched cpu).

Definition fetched_ea (cpu : ddp24_t) : Z :=
  effective_address cpu (fetched cpu).

(** The index [ddp24_read] uses for the fetch, and the PC after it. *)
Definition fetch_address (cpu : ddp24_t) : Z :=
  Z.land (PC cpu) (MEM_SIZE - 1).

Definition advance_PC (cpu : ddp24_t) : ddp24_t :=
  set_PC (Z.land (wrap32 (PC cpu + 1)) ADDR_MASK) cpu.

(** The state in which the XEC case makes its nested call: PC holds the
    effective address plus one. *)
Definition xec_entry (cpu : ddp24_t) : ddp24_t :=
  set_PC (Z.land (wrap32 (fetched_ea cpu + 1)) ADDR_MASK) cpu.

(** [xec_chain_ends n cpu]: following the nested calls of XEC from [cpu],
    an instruction other than XEC is fetched after at most [n] of them. *)
Fixpoint xec_chain_ends (n : nat) (cpu : ddp24_t) : bool :=
  if fetched_opcode cpu =? OP_XEC then
    match n with
    | O => false
    | S n' => xec_chain_ends n' (xec_entry cpu)
    end
  else true.

(** XEC as the specification words it: the word at the effective address
    [E] is fetched from [E] and executed, PC becoming [E + 1] by that
    fetch.  [xec_as_specified] holds when the step of [cpu] and that
    reference step both return and leave the same observable state. *)
Definition xec_as_specified (fuel : nat) (cpu : ddp24_t) : Prop :=
  match ddp24_step (S fuel) cpu,
        ddp24_step fuel (set_PC (fetched_ea cpu) cpu) with
  | Some (c1, _), Some (c2, _) => observable c1 = observable c2
  | _, _ => False
  end.

(** ** Sample processors *)

(** [XEC 0x10] at 0, [LDA 0x100] at 0x10, [NOP] at 0x11. *)
Definition prog_xec : ddp24_t :=
  load_words ddp24_init
    [ (0, instr_word OP_XEC 0x10);
      (0x10, instr_word OP_LDA 0x100);
      (0x11, instr_word OP_NOP 0);
      (0x100, 0x123456) ].

(** An XEC whose nested call fetches the same XEC again. *)
Definition prog_xec_loop : ddp24_t :=
  ddp24_write ddp24_init 0 (instr_word OP_XEC 0x7FFF).

(** Two XECs in a row, then a LDA. *)
Definition prog_xec_chain : ddp24_t :=
  load_words ddp24_init
    [ (0, instr_word OP_XEC 0x0F);
      (0x10, instr_word OP_XEC 0x1F);
      (0x20, instr_word OP_LDA 0x100);
      (0x100, 0x123456) ].

(** [LDA 0x100; STA 0x101; HLT] with PC on the HLT. *)
Definition prog_at_hlt : ddp24_t :=
  set_PC 2
    (load_words ddp24_init
       [ (0, instr_word OP_LDA 0x100);
         (1, instr_word OP_STA 0x101);
         (2, instr_word OP_HLT 0);
         (0x100, 0x123456) ]).

Definition prog_load_store : ddp24_t :=
  load_words ddp24_init
    [ (0, instr_word OP_LDA 0x100);
      (1, instr_word OP_STA 0x101);
      (2, instr_word OP_HLT 0);
      (0x100, 0x123456) ].

(** B = -5, operand 3. *)
Definition prog_mpy : ddp24_t :=
  set_B 0x800005
    (load_words ddp24_init [ (0, instr_word OP_MPY 0x100); (0x100, 3) ]).

(** A = 1, B = 0, divisor 1. *)
Definition prog_improper_div : ddp24_t :=
  set_A 1
    (load_words ddp24_init [ (0, instr_word OP_DIV 0x100); (0x100, 1) ]).

(** A = 7, divisor of magnitude zero (negative zero). *)
Definition prog_div_by_zero : ddp24_t :=
  set_A 7
    (load_words ddp24_init
       [ (0, instr_word OP_DIV 0x100); (0x100, 0x800000) ]).

(** NRM is in [opcode_t] but has no case in the switch. *)
Definition prog_nrm : ddp24_t :=
  set_PC 5 (load_words ddp24_init [ (5, instr_word OP_NRM 0) ]).

Definition halted_cpu : ddp24_t :=
  set_halted true prog_load_store.

(** ** Run until halt or [max_cycles]

    The [while] loop of [ddp24_run], with [total] as its accumulator.
    [n] bounds the iterations and [fuel] the nested activations of each
    step; [None] means that one of the two budgets ran out.  The [int]
    accumulator is an unbounded integer here. *)

Fixpoint run_loop (n fuel : nat) (cpu : ddp24_t) (max_cycles total : Z)
    {struct n} : option (ddp24_t * Z) :=
  if negb (halted cpu) && ((max_cycles <=? 0) || (total <? max_cycles)) then
    match n with
    | O => None
    | S n' =>
        match ddp24_step fuel cpu with
        | Some (cpu, c) => run_loop n' fuel cpu max_cycles (total + c)
        | None => None
        end
    end
  else Some (cpu, total).

Definition ddp24_run (n fuel : nat) (cpu : ddp24_t) (max_cycles : Z)
    : option (ddp24_t * Z) :=
  run_loop n fuel cpu max_cycles 0.

(** ** Loading a binary image

    The file is [None] when [fopen] fails and the list of its bytes
    otherwise.  [load_loop] is the [while] loop: a group of three bytes is
    read first and the address is checked afterwards; each group is stored
    as one word, most significant byte first, without masking. *)

Definition byte_val (b : Byte.byte) : Z := Z.of_N (Byte.to_N b).

Definition load_word (b0 b1 b2 : Byte.byte) : Z :=
  Z.lor (Z.lor (Z.shiftl (byte_val b0) 16) (Z.shiftl (byte_val b1) 8))
        (byte_val b2).

Fixpoint load_loop (bytes : list Byte.byte) (addr : Z) (mem : list Z)
    : Z * list Z :=
  match bytes with
  | b0 :: b1 :: b2 :: rest =>
      if addr <? MEM_SIZE
      then load_loop rest (addr + 1) (upd mem addr (load_word b0 b1 b2))
      else (addr, mem)
  | _ => (addr, mem)
  end.

Definition ddp24_load (cpu : ddp24_t) (file : option (list Byte.byte))
    : ddp24_t * Z :=
  match file with
  | None => (cpu, -1)
  | Some bytes =>
      let (addr, mem) := load_loop bytes 0 (memory cpu) in
      (set_memory mem cpu, addr)
  end.

(** ** The built-in tests ([run_tests] of [main.c])

    The tests assign to [cpu.memory[...]], [cpu.A] and [cpu.B] directly.
    [run_test] is the block every test repeats: run with a budget of 100
    cycles, then count the test as passed or failed.  [run_tests] returns
    the number of failed tests. *)

Definition poke (cpu : ddp24_t) (addr v : Z) : ddp24_t :=
  set_memory (upd (memory cpu) addr v) cpu.

Definition pokes (cpu : ddp24_t) (ws : list (Z * Z)) : ddp24_t :=
  fold_left (fun c aw => poke c (fst aw) (snd aw)) ws cpu.

Definition run_test (n fuel : nat) (cpu : ddp24_t) (pass : ddp24_t -> bool)
    (counts : Z * Z) : option (Z * Z) :=
  match ddp24_run n fuel cpu 100 with
  | Some (cpu', _) =>
      Some (if pass cpu' then (fst counts + 1, snd counts)
            else (fst counts, snd counts + 1))
  | None => None
  end.

Definition test_lda_sta : ddp24_t :=
  pokes ddp24_init
    [ (0, instr_word OP_LDA 0x100); (1, instr_word OP_STA 0x101);
      (2, Z.shiftl OP_HLT OP_SHIFT); (0x100, 0x123456) ].

Definition test_add : ddp24_t :=
  pokes ddp24_init
    [ (0, instr_word OP_LDA 0x100); (1, instr_word OP_ADD 0x101);
      (2, instr_word OP_STA 0x102); (3, Z.shiftl OP_HLT OP_SHIFT);
      (0x100, 0x000005); (0x101, 0x000003) ].

Definition test_sub : ddp24_t :=
  pokes ddp24_init
    [ (0, instr_word OP_LDA 0x100); (1, instr_word OP_SUB 0x101);
      (2, instr_word OP_STA 0x102); (3, Z.shiftl OP_HLT OP_SHIFT);
      (0x100, 0x000008); (0x101, 0x000003) ].

Definition test_jmp : ddp24_t :=
  pokes ddp24_init
    [ (0, instr_word OP_JMP 0x010); (1, Z.shiftl OP_HLT OP_SHIFT);
      (0x10, instr_word OP_LDA 0x100); (0x11, Z.shiftl OP_HLT OP_SHIFT);
      (0x100, 0x424242) ].

Definition test_jze : ddp24_t :=
  pokes ddp24_init
    [ (0, instr_word OP_LDA 0x100); (1, instr_word OP_JZE 0x010);
      (2, instr_word OP_LDA 0x101); (3, Z.shiftl OP_HLT OP_SHIFT);
      (0x10, instr_word OP_LDA 0x102); (0x11, Z.shiftl OP_HLT OP_SHIFT);
      (0x100, 0x000000); (0x101, 0xBAD); (0x102, 0x600D) ].

Definition test_ana : ddp24_t :=
  pokes ddp24_init
    [ (0, instr_word OP_LDA 0x100); (1, instr_word OP_ANA 0x101);
      (2, Z.shiftl OP_HLT OP_SHIFT);
      (0x100, 0xFF00FF); (0x101, 0x0F0F0F) ].

Definition test_mpy : ddp24_t :=
  pokes ddp24_init
    [ (0, instr_word OP_LDB 0x100); (1, instr_word OP_MPY 0x101);
      (2, Z.shiftl OP_HLT OP_SHIFT); (0x100, 100); (0x101, 50) ].

Definition test_mpy_signed : ddp24_t :=
  pokes ddp24_init
    [ (0, instr_word OP_LDB 0x100); (1, instr_word OP_MPY 0x101);
      (2, Z.shiftl OP_HLT OP_SHIFT);
      (0x100, Z.lor SIGN_BIT 5); (0x101, 3) ].

Definition test_div : ddp24_t :=
  pokes (set_B 5000 (set_A 0 ddp24_init))
    [ (0, instr_word OP_DIV 0x100); (1, Z.shiftl OP_HLT OP_SHIFT);
      (0x100, 50) ].

Definition run_tests (n fuel : nat) : option Z :=
  counts ← run_test n fuel test_lda_sta
    (fun cpu => sub (memory cpu) 0x101 =? 0x123456) (0, 0);
  counts ← run_test n fuel test_add
    (fun cpu => sub (memory cpu) 0x102 =? 0x000008) counts;
  counts ← run_test n fuel test_sub
    (fun cpu => sub (memory cpu) 0x102 =? 0x000005) counts;
  counts ← run_test n fuel test_jmp
    (fun cpu => A cpu =? 0x424242) counts;
  counts ← run_test n fuel test_jze
    (fun cpu => A cpu =? 0x600D) counts;
  counts ← run_test n fuel test_ana
    (fun cpu => A cpu =? 0x0F000F) counts;
  counts ← run_test n fuel test_mpy
    (fun cpu => (B cpu =? 5000) && (A cpu =? 0)) counts;
  counts ← run_test n fuel test_mpy_signed
    (fun cpu => (B cpu =? Z.lor SIGN_BIT 15) && (A cpu =? SIGN_BIT)) counts;
  counts ← run_test n fuel test_div
    (fun cpu => (B cpu =? 100) && (A cpu =? 0)) counts;
  Some (snd counts).

(** ** Vocabulary of the further properties *)

(** [one_word_written cpu cpu']: the memory of [cpu'] is that of [cpu],
    or that of [cpu] with one 24-bit word stored at one address. *)
Definition one_word_written (cpu cpu' : ddp24_t) : Prop :=
  memory cpu' = memory cpu \/
  exists addr v, fits 15 addr /\ fits 24 v /\
                 memory cpu' = upd (memory cpu) addr v.

(** The iterations of the loop of [ddp24_run] that a positive budget
    still allows once [total] cycles are spent: each costs at least 5. *)
Definition iterations_left (max_cycles total : Z) : nat :=
  Z.to_nat ((max_cycles - total + 4) / 5).

(** The opcodes whose case calls [ddp24_write]. *)
Definition store_opcodes : list Z := [ OP_STA; OP_STB; OP_JSL; OP_SIX ].

(** The three bytes of word [i] of an image, as the word they load to. *)
Definition image_word (bytes : list Byte.byte) (i : nat) : option Z :=
  match bytes !! (3 * i)%nat, bytes !! (3 * i + 1)%nat,
        bytes !! (3 * i + 2)%nat with
  | Some b0, Some b1, Some b2 =>
      Some (byte_val b0 * 65536 + byte_val b1 * 256 + byte_val b2)
  | _, _, _ => None
  end.

(** ** Sample inputs for the properties below *)

(** A proper divide: A:B = 0:5000, divisor -50. *)
Definition prog_div : ddp24_t :=
  set_B 5000
    (load_words ddp24_init
       [ (0, instr_word OP_DIV 0x100); (0x100, Z.lor SIGN_BIT 50) ]).

(** B = -1234 multiplied by the word at 0x100 (77), then divided by it. *)
Definition prog_mpy_div : ddp24_t :=
  set_B (Z.lor SIGN_BIT 1234)
    (load_words ddp24_init
       [ (0, instr_word OP_MPY 0x100); (1, instr_word OP_DIV 0x100);
         (0x100, 77) ]).

(** A = 0x7FFFFF, operand 1: the sum does not fit. *)
Definition prog_add_overflow : ddp24_t :=
  set_A 0x7FFFFF
    (load_words ddp24_init [ (0, instr_word OP_ADD 0x100); (0x100, 1) ]).

(** A = -0x7FFFFF, operand 1: the difference does not fit. *)
Definition prog_sub_overflow : ddp24_t :=
  set_A 0xFFFFFF
    (load_words ddp24_init [ (0, instr_word OP_SUB 0x100); (0x100, 1) ]).

(** A = -12; ARS 2 and ALS 20. *)
Definition prog_ars : ddp24_t :=
  set_A (Z.lor SIGN_BIT 12)
    (load_words ddp24_init [ (0, instr_word OP_ARS 2) ]).

Definition prog_als : ddp24_t :=
  set_A (Z.lor SIGN_BIT 12)
    (load_words ddp24_init [ (0, instr_word OP_ALS 20) ]).

(** STA 0x200 followed by LDA 0x200, with TAB in between untouched. *)
Definition prog_sta_lda : ddp24_t :=
  set_A 0xABCDEF
    (load_words ddp24_init
       [ (0, instr_word OP_STA 0x200); (1, instr_word OP_LDA 0x200) ]).

(** A subroutine at 0x40 called from 7: JSL 0x40 stores the return address
    at 0x40, the body starts at 0x41 and returns through an indirect JMP. *)
Definition prog_call : ddp24_t :=
  set_PC 7
    (load_words ddp24_init
       [ (7, instr_word OP_JSL 0x40);
         (0x41, Z.lor (instr_word OP_JMP 0x40) INDIRECT_BIT) ]).

(** LDX with index field 2: X[2] is loaded from 0x100. *)
Definition prog_ldx : ddp24_t :=
  load_words ddp24_init
    [ (0, Z.lor (instr_word OP_LDX 0x100) (Z.shiftl 2 INDEX_SHIFT));
      (0x100, 0x12345) ].

(** A three-word image and one trailing byte. *)
Definition sample_image : list Byte.byte :=
  [ Byte.x12; Byte.x34; Byte.x56; Byte.xab; Byte.xcd; Byte.xef;
    Byte.x00; Byte.x00; Byte.x01; Byte.xff ].

(** * Properties *)

(** ** Bit-width facts *)

Lemma fits_land_ones n x : 0 <= n -> fits n (Z.land x (Z.ones n)).
Proof.
  intros Hn. unfold fits. rewrite Z.land_ones by assumption.
  apply Z.mod_pos_bound, Z.pow_pos_nonneg; lia.
Qed.

Lemma fits_iff_land n w : 0 <= n -> fits n w <-> Z.land w (Z.ones n) = w.
Proof.
  intros Hn. rewrite Z.land_ones by assumption. unfold fits. split.
  - intros Hw. apply Z.mod_small, Hw.
  - intros <-. apply Z.mod_pos_bound, Z.pow_pos_nonneg; lia.
Qed.

Lemma fits_lor n a b : 0 <= n -> fits n a -> fits n b -> fits n (Z.lor a b).
Proof.
  intros Hn Ha Hb.
  apply (fits_iff_land n) in Ha; [|assumption].
  apply (fits_iff_land n) in Hb; [|assumption].
  rewrite <- Ha, <- Hb, <- Z.land_lor_distr_l.
  apply fits_land_ones, Hn.
Qed.

Lemma fits_mono n m w : 0 <= n <= m -> fits n w -> fits m w.
Proof.
  unfold fits. intros Hnm [H0 Hw]. split; [assumption|].
  eapply Z.lt_le_trans; [exact Hw|].
  apply Z.pow_le_mono_r; lia.
Qed.

Lemma fits_shiftr n w c : 0 <= c -> fits n w -> fits n (Z.shiftr w c).
Proof.
  unfold fits. intros Hc [H0 Hw]. rewrite Z.shiftr_div_pow2 by assumption.
  assert (0 < 2 ^ c) by (apply Z.pow_pos_nonneg; lia).
  split; [apply Z.div_pos; lia|].
  eapply Z.le_lt_trans; [|exact Hw].
  apply Z.div_le_upper_bound; nia.
Qed.

Lemma fits_ADDR x : fits 15 (Z.land x ADDR_MASK).
Proof. apply (fits_land_ones 15); lia. Qed.

Lemma fits_WORD x : fits 24 (Z.land x WORD_MASK).
Proof. apply (fits_land_ones 24); lia. Qed.

Lemma fits_MAG x : fits 23 (Z.land x MAGNITUDE_MASK).
Proof. apply (fits_land_ones 23); lia. Qed.

Lemma fits_MAG_word x : fits 24 (Z.land x MAGNITUDE_MASK).
Proof. apply (fits_mono 23); [lia | apply fits_MAG]. Qed.

Lemma fits_SIGN : fits 24 SIGN_BIT.
Proof. unfold fits, SIGN_BIT. lia. Qed.

Lemma fits_land_SIGN x : fits 24 (Z.land x SIGN_BIT).
Proof.
  replace SIGN_BIT with (Z.land SIGN_BIT WORD_MASK) by reflexivity.
  rewrite Z.land_assoc. apply fits_WORD.
Qed.

Lemma fits_0 n : 0 <= n -> fits n 0.
Proof. intros Hn. unfold fits. split; [lia | apply Z.pow_pos_nonneg; lia]. Qed.

Lemma fits_from_signed v : fits 24 (from_signed v).
Proof.
  unfold from_signed. destruct (v <? 0).
  - apply fits_lor; [lia | apply fits_SIGN | apply fits_MAG_word].
  - apply fits_MAG_word.
Qed.

Lemma fits_read cpu addr : fits 24 (ddp24_read cpu addr).
Proof. apply fits_WORD. Qed.

Lemma fits_effective_address cpu instr : fits 15 (effective_address cpu instr).
Proof.
  unfold effective_address, decode_address.
  destruct (decode_indirect instr), (0 <? decode_index instr);
    apply fits_ADDR.
Qed.

Create HintDb ddp24 discriminated.

#[local] Hint Resolve fits_ADDR fits_WORD fits_MAG fits_MAG_word fits_SIGN
  fits_land_SIGN fits_from_signed fits_read fits_effective_address : ddp24.
#[local] Hint Extern 1 (fits _ 0) => (apply fits_0; lia) : ddp24.
#[local] Hint Extern 2 (fits 24 (Z.lor _ _)) => (apply fits_lor; [lia| |]) : ddp24.
#[local] Hint Extern 2 (fits _ (Z.shiftr _ _)) => (apply fits_shiftr) : ddp24.

(** ** Arithmetic of the double-length register *)

Lemma lor_shiftl_add a b n :
  0 <= n -> fits n b -> Z.lor (Z.shiftl a n) b = a * 2 ^ n + b.
Proof.
  intros Hn Hb. rewrite Z.shiftl_mul_pow2 by assumption.
  pose proof (Z.add_lor_land (a * 2 ^ n) b) as Hsum.
  assert (Z.land (a * 2 ^ n) b = 0) as Hz; [|lia].
  clear Hsum. apply Z.bits_inj'. intros k Hk. rewrite Z.land_spec, Z.bits_0.
  destruct (Z.ltb_spec k n) as [Hlt|Hge].
  - rewrite Z.mul_pow2_bits_low by assumption. reflexivity.
  - apply (fits_iff_land n) in Hb; [|assumption].
    rewrite <- Hb, Z.land_spec, Z.testbit_ones_nonneg by lia.
    destruct (Z.ltb_spec k n); [lia|].
    rewrite andb_false_r, andb_false_r. reflexivity.
Qed.

Lemma wrap32_small w : fits 23 w -> wrap32 w = w.
Proof. unfold fits, wrap32. intros Hw. apply Z.mod_small. lia. Qed.

Lemma wrap64_small w : 0 <= w < 2 ^ 46 -> wrap64 w = w.
Proof. unfold wrap64. intros Hw. apply Z.mod_small. lia. Qed.

(** The 46-bit dividend [A:B] and the range of a proper quotient. *)
Lemma div_dividend a b :
  fits 23 a -> fits 23 b ->
  Z.lor (wrap64 (Z.shiftl a 23)) b = a * 2 ^ 23 + b.
Proof.
  intros Ha Hb. rewrite wrap64_small.
  - apply lor_shiftl_add; [lia | assumption].
  - rewrite Z.shiftl_mul_pow2 by lia. unfold fits in Ha. lia.
Qed.

Lemma div_proper_bounds a b d :
  fits 23 a -> fits 23 b -> fits 23 d -> a < d ->
  fits 23 ((a * 2 ^ 23 + b) / d) /\ fits 23 ((a * 2 ^ 23 + b) mod d).
Proof.
  unfold fits. intros Ha Hb Hd Had.
  assert (0 < d) by lia.
  pose proof (Z.mod_pos_bound (a * 2 ^ 23 + b) d ltac:(lia)).
  split; [split|lia].
  - apply Z.div_pos; lia.
  - apply Z.div_lt_upper_bound; nia.
Qed.

(** ** The machine-width invariant *)

Ltac fields :=
  cbn [A B X PC memory overflow halted interrupt_enabled cycles
       set_A set_B set_X set_PC set_memory set_overflow set_halted
       set_interrupt_enabled set_cycles ddp24_write].

Lemma wf_set_A v cpu : fits 24 v -> wf cpu -> wf (set_A v cpu).
Proof. intros Hv [ ]. constructor; fields; assumption. Qed.

Lemma wf_set_B v cpu : fits 24 v -> wf cpu -> wf (set_B v cpu).
Proof. intros Hv [ ]. constructor; fields; assumption. Qed.

Lemma wf_set_PC v cpu : fits 15 v -> wf cpu -> wf (set_PC v cpu).
Proof. intros Hv [ ]. constructor; fields; assumption. Qed.

Lemma wf_set_overflow v cpu : wf cpu -> wf (set_overflow v cpu).
Proof. intros [ ]. constructor; fields; assumption. Qed.

Lemma wf_set_halted v cpu : wf cpu -> wf (set_halted v cpu).
Proof. intros [ ]. constructor; fields; assumption. Qed.

Lemma wf_set_interrupt_enabled v cpu :
  wf cpu -> wf (set_interrupt_enabled v cpu).
Proof. intros [ ]. constructor; fields; assumption. Qed.

Lemma wf_set_cycles v cpu : wf cpu -> wf (set_cycles v cpu).
Proof. intros [ ]. constructor; fields; assumption. Qed.

Lemma wf_write cpu addr value : wf cpu -> wf (ddp24_write cpu addr value).
Proof.
  intros [ ]. constructor; fields; unfold upd; try assumption.
  - apply Forall_insert; [assumption | apply fits_WORD].
  - rewrite length_insert. assumption.
Qed.

(** [X[idx] = v] for an index other than 0 and a 15-bit value. *)
Lemma wf_set_X cpu idx v :
  0 < idx -> fits 15 v -> wf cpu -> wf (set_X (upd (X cpu) idx v) cpu).
Proof.
  intros Hidx Hv [ ]. constructor; fields; unfold upd; try assumption.
  - apply Forall_insert; assumption.
  - rewrite length_insert. assumption.
  - rewrite list_lookup_insert_ne; [assumption | lia].
Qed.

Lemma wf_init : wf ddp24_init.
Proof.
  constructor; fields; unfold ddp24_init; fields.
  - apply fits_0; lia.
  - apply fits_0; lia.
  - apply Forall_replicate, fits_0; lia.
  - apply length_replicate.
  - apply fits_0; lia.
  - apply Forall_replicate, fits_0; lia.
  - reflexivity.
  - reflexivity.
Qed.

Lemma wf_reset cpu : wf cpu -> wf (ddp24_reset cpu).
Proof.
  intros [ ]. unfold ddp24_reset. constructor; fields; unfold upd;
    rewrite ?length_insert; try assumption; try (apply fits_0; lia).
  - repeat apply Forall_insert; try assumption; apply fits_0; lia.
  - rewrite !list_lookup_insert_ne by lia.
    apply list_lookup_insert_eq. lia.
Qed.

#[local] Hint Resolve wf_set_A wf_set_B wf_set_PC wf_set_overflow
  wf_set_halted wf_set_cycles wf_write wf_A wf_B wf_PC : ddp24.

(** A proper divide leaves a 23-bit quotient and a 23-bit remainder. *)
Lemma div_results a b y :
  (Z.land y MAGNITUDE_MASK <=? Z.land a MAGNITUDE_MASK) = false ->
  fits 23 (wrap32 (Z.lor (wrap64 (Z.shiftl (Z.land a MAGNITUDE_MASK) 23))
                         (Z.land b MAGNITUDE_MASK)
                   / Z.land y MAGNITUDE_MASK)) /\
  fits 23 (wrap32 (Z.lor (wrap64 (Z.shiftl (Z.land a MAGNITUDE_MASK) 23))
                         (Z.land b MAGNITUDE_MASK)
                   mod Z.land y MAGNITUDE_MASK)).
Proof.
  intros Hlt. apply Z.leb_gt in Hlt.
  rewrite div_dividend by apply fits_MAG.
  destruct (div_proper_bounds (Z.land a MAGNITUDE_MASK)
              (Z.land b MAGNITUDE_MASK) (Z.land y MAGNITUDE_MASK))
    as [Hq Hr]; try apply fits_MAG; try assumption.
  rewrite !wrap32_small by assumption. split; assumption.
Qed.

Lemma fits_23_24 w : fits 23 w -> fits 24 w.
Proof. apply fits_mono. lia. Qed.

Lemma shift_count_nonneg ea : 0 <= Z.land ea 0x1F.
Proof. apply (fits_land_ones 5 ea). lia. Qed.

Ltac div_case cpu :=
  match goal with
  | H : (Z.land ?y _ <=? Z.land ?a _) = false |- _ =>
      destruct (div_results a (B cpu) y H) as [? ?];
      auto 8 using fits_23_24 with ddp24
  end.

(** Every case of the switch keeps the invariant, provided the nested call
    of the XEC case does. *)
Lemma wf_execute nested op instr ea cpu cpu' c :
  (forall s s' n, wf s -> nested s = Some (s', n) -> wf s') ->
  wf cpu -> fits 15 ea ->
  execute nested op instr ea cpu = Some (cpu', c) -> wf cpu'.
Proof.
  intros Hnested Hwf Hea. unfold execute.
  repeat case_match; intros [= <- <-]; subst;
    try solve [ auto 8 with ddp24 ].
  - (* DIV: the four combinations of quotient and remainder sign *)
    div_case cpu.
  - div_case cpu.
  - div_case cpu.
  - div_case cpu.
  - (* LDX *)
    apply wf_set_X; [apply Z.ltb_lt; assumption | apply fits_ADDR | assumption].
  - (* ARS *)
    apply wf_set_A; [|assumption].
    apply fits_lor; [lia | apply fits_land_SIGN |].
    apply fits_shiftr; [apply shift_count_nonneg | apply fits_MAG_word].
  - (* XEC *)
    eapply Hnested; [|eassumption].
    apply wf_set_PC; [apply fits_ADDR | assumption].
Qed.

Lemma ddp24_step_eq fuel cpu :
  ddp24_step fuel cpu =
  if halted cpu then Some (cpu, 0)
  else
    match execute (nested_call fuel) (fetched_opcode cpu) (fetched cpu)
            (fetched_ea cpu)
            (set_PC (Z.land (wrap32 (PC cpu + 1)) ADDR_MASK) cpu) with
    | Some (cpu', c) => Some (set_cycles (wrap64 (cycles cpu' + c)) cpu', c)
    | None => None
    end.
Proof. destruct fuel; reflexivity. Qed.

Lemma wf_step_with fuel cpu cpu' c :
  (forall s s' n, wf s -> nested_call fuel s = Some (s', n) -> wf s') ->
  wf cpu -> ddp24_step fuel cpu = Some (cpu', c) -> wf cpu'.
Proof.
  intros Hnested Hwf. rewrite ddp24_step_eq. destruct (halted cpu).
  - intros Heq. injection Heq as <- <-. exact Hwf.
  - destruct (execute (nested_call fuel) (fetched_opcode cpu) (fetched cpu)
                (fetched_ea cpu)
                (set_PC (Z.land (wrap32 (PC cpu + 1)) ADDR_MASK) cpu))
      as [[s n]|] eqn:Hex; intros Heq; [|discriminate Heq].
    injection Heq as <- <-.
    apply wf_set_cycles.
    apply (wf_execute _ _ _ _ _ _ _ Hnested) in Hex;
      [exact Hex | | apply fits_effective_address].
    apply wf_set_PC; [apply fits_ADDR | exact Hwf].
Qed.

Lemma wf_step fuel : forall cpu cpu' c,
  wf cpu -> ddp24_step fuel cpu = Some (cpu', c) -> wf cpu'.
Proof.
  induction fuel as [|fuel IH]; intros cpu cpu' c; apply wf_step_with.
  - intros s s' n _ Hnone. discriminate Hnone.
  - exact IH.
Qed.

Lemma wf_reachable cpu : reachable cpu -> wf cpu.
Proof.
  induction 1 as [|cpu _ IH|cpu addr value _ IH|cpu fuel cpu' c _ IH Hstep].
  - apply wf_init.
  - apply wf_reset, IH.
  - apply wf_write, IH.
  - eapply wf_step; eassumption.
Qed.

Lemma wf_machine_width cpu : wf cpu -> machine_width cpu.
Proof.
  intros [HA HB Hmem Hlen HPC HX HXlen HX0]. unfold machine_width.
  split; [exact HA|]. split; [exact HB|].
  split; [|split; [exact HPC|split; [|exact HX0]]].
  - intros i Hi.
    destruct (lookup_lt_is_Some_2 (memory cpu) (Z.to_nat i)) as [w Hw].
    { rewrite Hlen. apply Z2Nat.inj_lt; lia. }
    exists w. split; [assumption|].
    eapply Forall_lookup_1; eassumption.
  - intros i Hi.
    destruct (lookup_lt_is_Some_2 (X cpu) (Z.to_nat i)) as [x Hx].
    { rewrite HXlen. change 4%nat with (Z.to_nat 4). apply Z2Nat.inj_lt; lia. }
    exists x. split; [assumption|].
    eapply Forall_lookup_1; eassumption.
Qed.

(** C1. Machine-width invariant: in every state reachable from a freshly
    constructed processor by reset, write and returning steps, A, B and
    every memory word fit in 24 bits, PC and X[1], X[2], X[3] fit in 15
    bits, and X[0] is zero. *)
Theorem machine_width_invariant cpu : reachable cpu -> machine_width cpu.
Proof. intros Hr. apply wf_machine_width, wf_reachable, Hr. Qed.

(** ** Steps that dispatch a given opcode *)

Lemma step_halted fuel cpu :
  halted cpu = true -> ddp24_step fuel cpu = Some (cpu, 0).
Proof. intros Hh. rewrite ddp24_step_eq, Hh. reflexivity. Qed.

Lemma step_running fuel cpu :
  halted cpu = false ->
  ddp24_step fuel cpu =
  match execute (nested_call fuel) (fetched_opcode cpu) (fetched cpu)
          (fetched_ea cpu) (advance_PC cpu) with
  | Some (cpu', c) => Some (set_cycles (wrap64 (cycles cpu' + c)) cpu', c)
  | None => None
  end.
Proof. intros Hh. rewrite ddp24_step_eq, Hh. reflexivity. Qed.

(** PC arithmetic: masking a 32-bit wrap-around to the address width. *)
Lemma land_wrap32_ADDR x : Z.land (wrap32 x) ADDR_MASK = x mod 2 ^ 15.
Proof.
  change ADDR_MASK with (Z.ones 15). rewrite Z.land_ones by lia.
  unfold wrap32. change (2 ^ 32) with (2 ^ 15 * 2 ^ 17).
  rewrite Z.rem_mul_r by lia.
  rewrite Z.mul_comm, Z.mod_add by lia.
  apply Z.mod_mod. lia.
Qed.

Lemma fetch_address_mod cpu : fetch_address cpu = PC cpu mod 2 ^ 15.
Proof.
  unfold fetch_address. change (MEM_SIZE - 1) with (Z.ones 15).
  apply Z.land_ones. lia.
Qed.

Lemma PC_advance cpu :
  PC (advance_PC cpu) = (fetch_address cpu + 1) mod 2 ^ 15.
Proof.
  unfold advance_PC. fields.
  rewrite land_wrap32_ADDR, fetch_address_mod.
  rewrite Z.add_mod_idemp_l by lia. reflexivity.
Qed.

Lemma PC_advance_undo cpu :
  Z.land (wrap32 (PC (advance_PC cpu) - 1)) ADDR_MASK = fetch_address cpu.
Proof.
  rewrite land_wrap32_ADDR. unfold advance_PC. fields.
  rewrite land_wrap32_ADDR, fetch_address_mod.
  rewrite Zminus_mod_idemp_l. f_equal. lia.
Qed.

Lemma fetch_address_fits cpu : fits 15 (PC cpu) -> fetch_address cpu = PC cpu.
Proof.
  intros HPC. rewrite fetch_address_mod. apply Z.mod_small, HPC.
Qed.

(** C6. A halted processor does not step: the call returns 0 and the state
    it leaves is the state it found, field for field (registers, memory,
    PC, flags and the cycle counter). *)
Theorem halted_step_is_noop fuel cpu :
  halted cpu = true -> ddp24_step fuel cpu = Some (cpu, 0).
Proof. apply step_halted. Qed.

Lemma halted_step_is_noop_witness :
  halted halted_cpu = true /\ ddp24_step 0 halted_cpu = Some (halted_cpu, 0).
Proof.
  split; [reflexivity|]. apply (halted_step_is_noop 0 halted_cpu). reflexivity.
Defined.

(** C5. HLT stays on halt: a running processor that fetches HLT latches
    [halted], ends with PC on the address the HLT word was fetched from
    (which is PC itself when PC is a 15-bit value), returns 5 and adds 5
    to the cycle counter; nothing else changes. *)
Theorem HLT_stays_on_halt fuel cpu :
  halted cpu = false -> fetched_opcode cpu = OP_HLT ->
  exists cpu',
    ddp24_step fuel cpu = Some (cpu', 5) /\
    halted cpu' = true /\
    PC cpu' = fetch_address cpu /\
    (fits 15 (PC cpu) -> PC cpu' = PC cpu) /\
    cycles cpu' = wrap64 (cycles cpu + 5) /\
    A cpu' = A cpu /\ B cpu' = B cpu /\ X cpu' = X cpu /\
    memory cpu' = memory cpu /\ overflow cpu' = overflow cpu /\
    interrupt_enabled cpu' = interrupt_enabled cpu.
Proof.
  intros Hh Hop. rewrite step_running, Hop by assumption.
  eexists. split; [reflexivity|]. fields.
  rewrite PC_advance_undo.
  repeat split; try reflexivity.
  intros HPC. apply fetch_address_fits, HPC.
Qed.

Lemma HLT_stays_on_halt_witness :
  exists cpu',
    ddp24_step 0 prog_at_hlt = Some (cpu', 5) /\
    halted cpu' = true /\ PC cpu' = 2.
Proof.
  destruct (HLT_stays_on_halt 0 prog_at_hlt) as (cpu' & Hs & Hh & HPC & _);
    [reflexivity | reflexivity |].
  exists cpu'. repeat split; assumption.
Defined.

(** The early [break] of the DIV case. *)
Lemma execute_DIV_improper nested instr ea cpu :
  (Z.land (ddp24_read cpu ea) MAGNITUDE_MASK
     <=? Z.land (A cpu) MAGNITUDE_MASK) = true ->
  execute nested OP_DIV instr ea cpu = Some (set_overflow true cpu, 44).
Proof. intros Hle. unfold execute. cbv zeta. rewrite Hle. reflexivity. Qed.

(** C7. Improper divide: a running processor that fetches DIV while
    magnitude(A) >= magnitude(mem[ea]) (a divisor of magnitude zero
    always qualifies) latches [overflow], leaves A and B as they were,
    stays running, returns 44 and adds 44 to the cycle counter; memory
    and the index registers are untouched and PC is past the DIV. *)
Theorem improper_divide fuel cpu :
  halted cpu = false -> fetched_opcode cpu = OP_DIV ->
  Z.land (ddp24_read cpu (fetched_ea cpu)) MAGNITUDE_MASK = 0 \/
  Z.land (ddp24_read cpu (fetched_ea cpu)) MAGNITUDE_MASK
    <= Z.land (A cpu) MAGNITUDE_MASK ->
  exists cpu',
    ddp24_step fuel cpu = Some (cpu', 44) /\
    overflow cpu' = true /\
    A cpu' = A cpu /\ B cpu' = B cpu /\
    halted cpu' = false /\
    cycles cpu' = wrap64 (cycles cpu + 44) /\
    memory cpu' = memory cpu /\ X cpu' = X cpu /\
    PC cpu' = PC (advance_PC cpu).
Proof.
  intros Hh Hop Himp.
  assert ((Z.land (ddp24_read cpu (fetched_ea cpu)) MAGNITUDE_MASK
             <=? Z.land (A cpu) MAGNITUDE_MASK) = true) as Hle.
  { apply Z.leb_le. destruct Himp as [Hz|Hle]; [|exact Hle].
    rewrite Hz. apply (fits_MAG (A cpu)). }
  rewrite step_running, Hop by assumption.
  rewrite execute_DIV_improper by exact Hle.
  eexists. split; [reflexivity|]. fields.
  repeat split; assumption.
Qed.

Lemma improper_divide_witness :
  (exists cpu',
     ddp24_step 0 prog_improper_div = Some (cpu', 44) /\
     overflow cpu' = true /\ A cpu' = 1 /\ B cpu' = 0 /\
     halted cpu' = false) /\
  (exists cpu',
     ddp24_step 0 prog_div_by_zero = Some (cpu', 44) /\
     overflow cpu' = true /\ A cpu' = 7 /\ B cpu' = 0 /\
     halted cpu' = false).
Proof.
  split.
  - destruct (improper_divide 0 prog_improper_div)
      as (cpu' & Hs & Ho & HA & HB & Hh & _);
      [reflexivity | reflexivity | right; vm_compute; discriminate |].
    exists cpu'. repeat split; assumption.
  - destruct (improper_divide 0 prog_div_by_zero)
      as (cpu' & Hs & Ho & HA & HB & Hh & _);
      [reflexivity | reflexivity | left; reflexivity |].
    exists cpu'. repeat split; assumption.
Defined.

(** ** Multiply *)

Lemma lor_SIGN_BIT m : fits 23 m -> Z.lor SIGN_BIT m = SIGN_BIT + m.
Proof.
  intros Hm. change SIGN_BIT with (Z.shiftl 1 23).
  rewrite lor_shiftl_add by (assumption || lia). reflexivity.
Qed.

Lemma product_fits b y : fits 23 b -> fits 23 y -> fits 46 (b * y).
Proof. unfold fits. intros Hb Hy. nia. Qed.

(** The two halves of a 46-bit product as the MPY case extracts them. *)
Lemma product_halves p :
  fits 46 p ->
  Z.land (Z.shiftr (wrap64 p) 23) MAGNITUDE_MASK = p / 2 ^ 23 /\
  Z.land (wrap64 p) MAGNITUDE_MASK = p mod 2 ^ 23 /\
  fits 23 (p / 2 ^ 23).
Proof.
  intros Hp. rewrite wrap64_small by exact Hp.
  assert (fits 23 (p / 2 ^ 23)) as Hhi.
  { unfold fits in *. split; [apply Z.div_pos; lia|].
    apply Z.div_lt_upper_bound; lia. }
  change MAGNITUDE_MASK with (Z.ones 23).
  rewrite !Z.land_ones, Z.shiftr_div_pow2 by lia.
  repeat split; try apply Hhi.
  apply Z.mod_small, Hhi.
Qed.

Lemma product_zero_halves p :
  ((p / 2 ^ 23 =? 0) && (p mod 2 ^ 23 =? 0)) = (p =? 0).
Proof.
  pose proof (Z.div_mod p (2 ^ 23) ltac:(lia)) as Hdm.
  destruct (Z.eqb_spec p 0) as [->|Hp]; [reflexivity|].
  destruct (Z.eqb_spec (p / 2 ^ 23) 0) as [Hq|Hq]; [|reflexivity].
  destruct (Z.eqb_spec (p mod 2 ^ 23) 0) as [Hr|Hr]; [|reflexivity].
  lia.
Qed.

(** What the MPY case leaves in A and B. *)
Lemma execute_MPY nested instr ea cpu :
  let operand := ddp24_read cpu ea in
  let product := Z.land (B cpu) MAGNITUDE_MASK
                 * Z.land operand MAGNITUDE_MASK in
  let sign :=
    if xorb (sign_set (B cpu)) (sign_set operand) && negb (product =? 0)
    then SIGN_BIT else 0 in
  execute nested OP_MPY instr ea cpu =
  Some (set_B (sign + product mod 2 ^ 23)
          (set_A (sign + product / 2 ^ 23) cpu), 28).
Proof.
  intros operand product sign.
  assert (fits 46 product) as Hp by (apply product_fits; apply fits_MAG).
  destruct (product_halves product Hp) as (Hhi & Hlo & Hhifits).
  assert (fits 23 (product mod 2 ^ 23)) as Hlofits.
  { unfold fits. apply Z.mod_pos_bound. lia. }
  unfold execute. cbv zeta. fold operand. fold product.
  rewrite Hhi, Hlo, <- negb_andb, product_zero_halves.
  change (OP_MPY =? OP_HLT) with false. cbv iota.
  replace (if OP_MPY =? OP_NOP then _ else _) with
    (Some (set_B (sign + product mod 2 ^ 23)
             (set_A (sign + product / 2 ^ 23) cpu), 28)); [reflexivity|].
  unfold sign.
  destruct (xorb (sign_set (B cpu)) (sign_set operand) && negb (product =? 0)).
  - rewrite !lor_SIGN_BIT by assumption. reflexivity.
  - reflexivity.
Qed.

(** A sign-magnitude word assembled from a sign and a 23-bit magnitude. *)
Section SignMagnitude.
Variables (neg : bool) (m : Z).
Hypothesis Hm : fits 23 m.

Let w := (if neg then SIGN_BIT else 0) + m.

Lemma sm_as_lor : w = Z.lor (if neg then SIGN_BIT else 0) m.
Proof.
  unfold w. destruct neg.
  - symmetry. apply lor_SIGN_BIT, Hm.
  - rewrite Z.lor_0_l. reflexivity.
Qed.

Lemma land_MAG_small : Z.land m MAGNITUDE_MASK = m.
Proof. apply (fits_iff_land 23 m); [lia | exact Hm]. Qed.

Lemma land_SIGN_small : Z.land m SIGN_BIT = 0.
Proof.
  rewrite <- land_MAG_small, <- Z.land_assoc.
  change (Z.land MAGNITUDE_MASK SIGN_BIT) with 0. apply Z.land_0_r.
Qed.

Lemma sm_magnitude : Z.land w MAGNITUDE_MASK = m.
Proof.
  rewrite sm_as_lor, Z.land_lor_distr_l, land_MAG_small.
  destruct neg; reflexivity.
Qed.

Lemma sm_sign : sign_set w = neg.
Proof.
  unfold sign_set.
  rewrite sm_as_lor, Z.land_lor_distr_l, land_SIGN_small, Z.lor_0_r.
  destruct neg; reflexivity.
Qed.

Lemma sm_fits : fits 24 w.
Proof.
  rewrite sm_as_lor. apply fits_lor; [lia | | apply fits_23_24, Hm].
  destruct neg; [apply fits_SIGN | apply fits_0; lia].
Qed.
End SignMagnitude.

(** C8. MPY: a running processor that fetches MPY forms the product of
    magnitude(B) and magnitude(mem[ea]), a 46-bit value; afterwards the
    magnitude of A is its high 23 bits and the magnitude of B its low 23
    bits, and the sign bit of both is the XOR of the operand signs when
    the product is non-zero and clear when it is zero, so that a zero
    product leaves 0x000000 in A and in B.  The step returns 28. *)
Theorem MPY_correct fuel cpu :
  halted cpu = false -> fetched_opcode cpu = OP_MPY ->
  let operand := ddp24_read cpu (fetched_ea cpu) in
  let product :=
    Z.land (B cpu) MAGNITUDE_MASK * Z.land operand MAGNITUDE_MASK in
  let negative :=
    xorb (sign_set (B cpu)) (sign_set operand) && negb (product =? 0) in
  exists cpu',
    ddp24_step fuel cpu = Some (cpu', 28) /\
    fits 46 product /\
    Z.land (A cpu') MAGNITUDE_MASK = product / 2 ^ 23 /\
    Z.land (B cpu') MAGNITUDE_MASK = product mod 2 ^ 23 /\
    sign_set (A cpu') = negative /\ sign_set (B cpu') = negative /\
    fits 24 (A cpu') /\ fits 24 (B cpu') /\
    (product = 0 -> A cpu' = 0 /\ B cpu' = 0).
Proof.
  intros Hh Hop operand product negative.
  assert (fits 46 product) as Hp by (apply product_fits; apply fits_MAG).
  destruct (product_halves product Hp) as (_ & _ & Hhi).
  assert (fits 23 (product mod 2 ^ 23)) as Hlo.
  { unfold fits. apply Z.mod_pos_bound. lia. }
  rewrite step_running, Hop by assumption.
  pose proof (execute_MPY (nested_call fuel) (fetched cpu) (fetched_ea cpu)
                (advance_PC cpu)) as Hex.
  cbv zeta in Hex.
  change (ddp24_read (advance_PC cpu) (fetched_ea cpu)) with operand in Hex.
  change (B (advance_PC cpu)) with (B cpu) in Hex.
  fold product in Hex. fold negative in Hex.
  rewrite Hex. clear Hex.
  eexists. split; [reflexivity|]. fields.
  split; [exact Hp|].
  split; [apply sm_magnitude, Hhi|].
  split; [apply sm_magnitude, Hlo|].
  split; [apply sm_sign, Hhi|].
  split; [apply sm_sign, Hlo|].
  split; [apply sm_fits, Hhi|].
  split; [apply sm_fits, Hlo|].
  intros Hz. unfold negative. rewrite Hz, andb_false_r.
  split; reflexivity.
Qed.

Lemma MPY_correct_witness :
  exists cpu',
    ddp24_step 0 prog_mpy = Some (cpu', 28) /\
    Z.land (A cpu') MAGNITUDE_MASK = 0 /\
    Z.land (B cpu') MAGNITUDE_MASK = 15 /\
    sign_set (A cpu') = true /\ sign_set (B cpu') = true.
Proof.
  destruct (MPY_correct 0 prog_mpy)
    as (cpu' & Hs & _ & HA & HB & HsA & HsB & _);
    [reflexivity | reflexivity |].
  exists cpu'. repeat split; assumption.
Defined.

(** ** Opcodes without a case *)

(** An opcode outside the case labels reaches [default]. *)
Lemma execute_default nested op instr ea cpu :
  implemented op = false ->
  execute nested op instr ea cpu = Some (set_halted true cpu, 5).
Proof.
  unfold implemented, implemented_opcodes. cbn [existsb]. intros Himpl.
  repeat (apply orb_false_iff in Himpl; destruct Himpl as [? Himpl]).
  unfold execute.
  repeat match goal with
         | H : (op =? _) = false |- _ => rewrite H; clear H
         end.
  reflexivity.
Qed.

Lemma execute_NOP nested instr ea cpu :
  execute nested OP_NOP instr ea cpu = Some (cpu, 5).
Proof. reflexivity. Qed.

Lemma step_unimplemented fuel cpu :
  halted cpu = false -> implemented (fetched_opcode cpu) = false ->
  ddp24_step fuel cpu =
  Some (set_cycles (wrap64 (cycles cpu + 5))
          (set_halted true (advance_PC cpu)), 5).
Proof.
  intros Hh Himpl.
  rewrite step_running, execute_default by assumption. reflexivity.
Qed.

(** What a NOP at the same place would have left. *)
Lemma step_NOP fuel cpu :
  halted cpu = false -> fetched_opcode cpu = OP_NOP ->
  ddp24_step fuel cpu =
  Some (set_cycles (wrap64 (cycles cpu + 5)) (advance_PC cpu), 5).
Proof.
  intros Hh Hop. rewrite step_running, Hop by assumption. reflexivity.
Qed.

(** Of the 64 opcode values, 28 have a case; NRM, STC and RIX are among
    the 36 that have none. *)
Lemma implemented_count :
  length (filter (fun op => implemented op = true) (seqZ 0 64)) = 28%nat /\
  implemented OP_NRM = false /\ implemented OP_STC = false /\
  implemented OP_RIX = false.
Proof. repeat split; vm_compute; reflexivity. Qed.

(** C9. Unimplemented opcodes fault: a running processor that fetches a
    word whose opcode has no case latches [halted], so every later step
    is refused with 0 cycles; registers and memory are untouched, and the
    state differs from the one a NOP would have left, which is still
    running. *)
Theorem unimplemented_opcode_faults fuel cpu :
  halted cpu = false -> implemented (fetched_opcode cpu) = false ->
  exists cpu' c,
    ddp24_step fuel cpu = Some (cpu', c) /\
    halted cpu' = true /\
    (forall fuel', ddp24_step fuel' cpu' = Some (cpu', 0)) /\
    A cpu' = A cpu /\ B cpu' = B cpu /\ X cpu' = X cpu /\
    memory cpu' = memory cpu /\
    cpu' <> set_cycles (wrap64 (cycles cpu + 5)) (advance_PC cpu) /\
    halted (set_cycles (wrap64 (cycles cpu + 5)) (advance_PC cpu)) = false.
Proof.
  intros Hh Himpl. rewrite step_unimplemented by assumption.
  eexists _, _. split; [reflexivity|].
  split; [reflexivity|].
  split; [intros fuel'; apply step_halted; reflexivity|].
  repeat (split; [reflexivity|]).
  split; [|exact Hh].
  intros Heq. apply (f_equal halted) in Heq. cbn in Heq. congruence.
Qed.

Lemma unimplemented_opcode_faults_witness :
  implemented (fetched_opcode prog_nrm) = false /\
  exists cpu' c,
    ddp24_step 0 prog_nrm = Some (cpu', c) /\
    halted cpu' = true /\
    ddp24_step 0 cpu' = Some (cpu', 0).
Proof.
  split; [reflexivity|].
  destruct (unimplemented_opcode_faults 0 prog_nrm)
    as (cpu' & c & Hs & Hh & Hstop & _); [reflexivity | reflexivity |].
  exists cpu', c. repeat split; [assumption | assumption | apply Hstop].
Defined.

(** C10. After a step that fetches an opcode without a case, PC is the
    address of that word plus one modulo 2^15 (the fetch increment
    stays, so PC is not on the offending word as it would be after HLT),
    the step returns 5 and the cycle counter has advanced by 5. *)
Theorem unimplemented_opcode_keeps_increment fuel cpu :
  halted cpu = false -> implemented (fetched_opcode cpu) = false ->
  exists cpu',
    ddp24_step fuel cpu = Some (cpu', 5) /\
    PC cpu' = (fetch_address cpu + 1) mod 2 ^ 15 /\
    PC cpu' <> fetch_address cpu /\
    cycles cpu' = wrap64 (cycles cpu + 5).
Proof.
  intros Hh Himpl. rewrite step_unimplemented by assumption.
  eexists. split; [reflexivity|].
  change (PC (set_cycles (wrap64 (cycles cpu + 5))
                (set_halted true (advance_PC cpu))))
    with (PC (advance_PC cpu)).
  rewrite PC_advance.
  split; [reflexivity|]. split; [|reflexivity].
  pose proof (fetch_address_mod cpu) as Hfa.
  pose proof (Z.mod_pos_bound (PC cpu) (2 ^ 15) ltac:(lia)) as Hb.
  rewrite <- Hfa in Hb.
  destruct (Z.eq_dec (fetch_address cpu) (2 ^ 15 - 1)) as [Htop|Hlow].
  - rewrite Htop. change ((2 ^ 15 - 1 + 1) mod 2 ^ 15) with 0. lia.
  - rewrite Z.mod_small by lia. lia.
Qed.

Lemma unimplemented_opcode_keeps_increment_witness :
  exists cpu',
    ddp24_step 0 prog_nrm = Some (cpu', 5) /\
    PC cpu' = 6 /\ cycles cpu' = 5.
Proof.
  destruct (unimplemented_opcode_keeps_increment 0 prog_nrm)
    as (cpu' & Hs & HPC & _ & Hc); [reflexivity | reflexivity |].
  exists cpu'. repeat split; assumption.
Defined.

(** ** XEC *)

(** The XEC case: the nested activation starts from [xec_entry], i.e. with
    PC on the word after the effective address; its cycles are added once
    by the nested activation and once more, together with the 5 of XEC, by
    the outer one. *)
Lemma step_XEC fuel cpu :
  halted cpu = false -> fetched_opcode cpu = OP_XEC ->
  ddp24_step fuel cpu =
  match nested_call fuel (xec_entry cpu) with
  | Some (cpu', c) =>
      Some (set_cycles (wrap64 (cycles cpu' + (5 + c))) cpu', 5 + c)
  | None => None
  end.
Proof.
  intros Hh Hop. rewrite step_running, Hop by assumption.
  change (execute (nested_call fuel) OP_XEC (fetched cpu) (fetched_ea cpu)
            (advance_PC cpu))
    with (match nested_call fuel (xec_entry cpu) with
          | Some (cpu', c) => Some (cpu', 5 + c)
          | None => None
          end).
  destruct (nested_call fuel (xec_entry cpu)) as [[cpu' c]|]; reflexivity.
Qed.

(** Every other case returns. *)
Lemma execute_returns nested op instr ea cpu :
  op <> OP_XEC -> is_Some (execute nested op instr ea cpu).
Proof.
  intros Hop. unfold execute.
  repeat case_match; try (eexists; reflexivity).
  exfalso. apply Hop, Z.eqb_eq. assumption.
Qed.

Lemma step_not_XEC_returns fuel cpu :
  fetched_opcode cpu <> OP_XEC -> is_Some (ddp24_step fuel cpu).
Proof.
  intros Hop. rewrite ddp24_step_eq. destruct (halted cpu); [eexists; reflexivity|].
  destruct (execute_returns (nested_call fuel) (fetched_opcode cpu)
              (fetched cpu) (fetched_ea cpu)
              (set_PC (Z.land (wrap32 (PC cpu + 1)) ADDR_MASK) cpu) Hop)
    as [[s c] ->].
  eexists; reflexivity.
Qed.

Lemma xec_chain_ends_S n cpu :
  fetched_opcode cpu = OP_XEC ->
  xec_chain_ends (S n) cpu = xec_chain_ends n (xec_entry cpu).
Proof. intros Hop. cbn [xec_chain_ends]. rewrite Hop. reflexivity. Qed.

Lemma xec_chain_ends_0 cpu :
  fetched_opcode cpu = OP_XEC -> xec_chain_ends 0 cpu = false.
Proof. intros Hop. cbn [xec_chain_ends]. rewrite Hop. reflexivity. Qed.

Lemma xec_chain_ends_not_XEC n cpu :
  fetched_opcode cpu <> OP_XEC -> xec_chain_ends n cpu = true.
Proof.
  intros Hop. apply Z.eqb_neq in Hop.
  destruct n; cbn [xec_chain_ends]; rewrite Hop; reflexivity.
Qed.

(** A step returns within [fuel] nested activations exactly when the
    processor is halted or its XEC chain ends within [fuel] links. *)
Lemma step_returns_iff fuel : forall cpu,
  is_Some (ddp24_step fuel cpu) <->
  halted cpu = true \/ xec_chain_ends fuel cpu = true.
Proof.
  induction fuel as [|fuel IH]; intros cpu.
  - destruct (halted cpu) eqn:Hh.
    { rewrite step_halted by assumption. split; [auto | eexists; reflexivity]. }
    destruct (Z.eq_dec (fetched_opcode cpu) OP_XEC) as [Hop|Hop].
    + rewrite step_XEC, xec_chain_ends_0 by assumption. cbn [nested_call].
      split; [intros [? [=]] | intros [[=]|[=]]].
    + rewrite xec_chain_ends_not_XEC by assumption.
      split; [auto | intros _; apply step_not_XEC_returns, Hop].
  - destruct (halted cpu) eqn:Hh.
    { rewrite step_halted by assumption. split; [auto | eexists; reflexivity]. }
    destruct (Z.eq_dec (fetched_opcode cpu) OP_XEC) as [Hop|Hop].
    + rewrite step_XEC, xec_chain_ends_S by assumption. cbn [nested_call].
      specialize (IH (xec_entry cpu)).
      change (halted (xec_entry cpu)) with (halted cpu) in IH.
      rewrite Hh in IH.
      destruct (ddp24_step fuel (xec_entry cpu)) as [[s c]|].
      * split; [intros _ | intros _; eexists; reflexivity].
        right. destruct IH as [[[=]|IH] _]; [eexists; reflexivity | exact IH].
      * split; [intros [? [=]] | intros [[=]|Hc]].
        destruct IH as [_ IH]. destruct (IH (or_intror Hc)) as [? [=]].
    + rewrite xec_chain_ends_not_XEC by assumption.
      split; [auto | intros _; apply step_not_XEC_returns, Hop].
Qed.

(** The result of a step does not depend on the budget once it suffices. *)
Lemma step_fuel_S fuel : forall cpu r,
  ddp24_step fuel cpu = Some r -> ddp24_step (S fuel) cpu = Some r.
Proof.
  induction fuel as [|fuel IH]; intros cpu r.
  - destruct (halted cpu) eqn:Hh.
    { rewrite !step_halted by assumption. auto. }
    destruct (Z.eq_dec (fetched_opcode cpu) OP_XEC) as [Hop|Hop].
    + rewrite step_XEC by assumption. cbn [nested_call]. discriminate.
    + rewrite !step_running by assumption. unfold execute.
      apply Z.eqb_neq in Hop. rewrite Hop. auto.
  - destruct (halted cpu) eqn:Hh.
    { rewrite !step_halted by assumption. auto. }
    destruct (Z.eq_dec (fetched_opcode cpu) OP_XEC) as [Hop|Hop].
    + rewrite !step_XEC by assumption. cbn [nested_call].
      destruct (ddp24_step fuel (xec_entry cpu)) as [r'|] eqn:Hn;
        [|discriminate].
      rewrite (IH _ _ Hn). auto.
    + rewrite !step_running by assumption. unfold execute.
      apply Z.eqb_neq in Hop. rewrite Hop. auto.
Qed.

Lemma step_fuel_mono fuel fuel' cpu r :
  (fuel <= fuel')%nat ->
  ddp24_step fuel cpu = Some r -> ddp24_step fuel' cpu = Some r.
Proof.
  induction 1 as [|fuel' _ IH]; [auto|].
  intros Hs. apply step_fuel_S, IH, Hs.
Qed.

(** C3 (amended). The XEC recursion has no bound: a step returns within
    [fuel] nested activations exactly when the processor is halted or the
    chain of XEC fetches reaches an instruction other than XEC within
    [fuel] links, so a step returns at all exactly when the processor is
    halted or its XEC chain is finite. *)
Theorem step_returns_iff_xec_chain_finite cpu :
  (forall fuel,
     is_Some (ddp24_step fuel cpu) <->
     halted cpu = true \/ xec_chain_ends fuel cpu = true) /\
  (terminates cpu <->
   halted cpu = true \/ exists n, xec_chain_ends n cpu = true).
Proof.
  split; [intros fuel; apply step_returns_iff|].
  unfold terminates. split.
  - intros (fuel & r & Hs).
    destruct (proj1 (step_returns_iff fuel cpu)) as [Hh|Hc];
      [eexists; exact Hs | left; exact Hh | right; exists fuel; exact Hc].
  - intros [Hh|[n Hc]].
    + exists 0%nat. eexists. apply step_halted, Hh.
    + destruct (proj2 (step_returns_iff n cpu) (or_intror Hc)) as [r Hs].
      exists n, r. exact Hs.
Qed.

(** On [prog_xec_loop], a state that construction and one write reach, the
    nested call of the XEC fetches the same XEC again: no recursion budget
    makes the step return, and nothing latches [halted]. *)
Lemma xec_loop_never_returns :
  reachable prog_xec_loop /\ halted prog_xec_loop = false /\
  ~ terminates prog_xec_loop.
Proof.
  split; [apply reach_write, reach_init|]. split; [reflexivity|].
  assert (forall n, xec_chain_ends n prog_xec_loop = false) as Hchain.
  { induction n as [|n IH].
    - apply xec_chain_ends_0. reflexivity.
    - rewrite xec_chain_ends_S by reflexivity.
      assert (xec_entry prog_xec_loop = prog_xec_loop) as ->
        by reflexivity.
      exact IH. }
  intros (fuel & r & Hs).
  destruct (proj1 (step_returns_iff fuel prog_xec_loop)) as [Hh|Hc];
    [eexists; exact Hs | discriminate Hh |].
  rewrite Hchain in Hc. discriminate Hc.
Qed.

(** On [prog_xec_chain] two XECs are chained: the step needs two nested
    activations, and then returns 5 + 5 + 10. *)
Lemma xec_chain_of_two :
  ddp24_step 1 prog_xec_chain = None /\
  option_map (fun r => (A (fst r), PC (fst r), snd r))
    (ddp24_step 2 prog_xec_chain) = Some (0x123456, 0x21, 20).
Proof. split; vm_compute; reflexivity. Qed.

(** What the code does on XEC, in the terms of the specification: the
    observable state is the one a step started with PC on the word after
    the effective address leaves. *)
Lemma XEC_as_coded fuel cpu cpu' c :
  halted cpu = false -> fetched_opcode cpu = OP_XEC ->
  ddp24_step (S fuel) cpu = Some (cpu', c) ->
  exists cpu2 c2,
    ddp24_step fuel (xec_entry cpu) = Some (cpu2, c2) /\
    observable cpu' = observable cpu2 /\ c = 5 + c2 /\
    cycles cpu' = wrap64 (cycles cpu2 + (5 + c2)).
Proof.
  intros Hh Hop. rewrite step_XEC by assumption. cbn [nested_call].
  destruct (ddp24_step fuel (xec_entry cpu)) as [[cpu2 c2]|]; [|discriminate].
  intros [= <- <-]. exists cpu2, c2. repeat split; reflexivity.
Qed.

(** C2. On [prog_xec] (XEC 0x10 at address 0, LDA 0x100 at 0x10, NOP at
    0x11) the step executes the NOP at 0x11 and leaves A = 0, PC = 0x12,
    whereas the word at the effective address 0x10, fetched from there,
    leaves A = 0x123456, PC = 0x11: the two observable states differ for
    every recursion budget. *)
Theorem XEC_executes_word_after_ea :
  halted prog_xec = false /\
  fetched_opcode prog_xec = OP_XEC /\ fetched_ea prog_xec = 0x10 /\
  option_map (fun r => (A (fst r), PC (fst r))) (ddp24_step 1 prog_xec)
    = Some (0, 0x12) /\
  option_map (fun r => (A (fst r), PC (fst r)))
    (ddp24_step 0 (set_PC (fetched_ea prog_xec) prog_xec))
    = Some (0x123456, 0x11) /\
  forall fuel, ~ xec_as_specified fuel prog_xec.
Proof.
  assert (option_map (fun r => (A (fst r), PC (fst r)))
            (ddp24_step 1 prog_xec) = Some (0, 0x12)) as Hcode
    by (vm_compute; reflexivity).
  assert (option_map (fun r => (A (fst r), PC (fst r)))
            (ddp24_step 0 (set_PC (fetched_ea prog_xec) prog_xec))
          = Some (0x123456, 0x11)) as Href
    by (vm_compute; reflexivity).
  repeat (split; [reflexivity || assumption|]).
  intros fuel. unfold xec_as_specified.
  assert (is_Some (ddp24_step 1 prog_xec)) as [[c1 n1] H1]
    by (apply step_returns_iff; right; vm_compute; reflexivity).
  assert (is_Some (ddp24_step 0 (set_PC (fetched_ea prog_xec) prog_xec)))
    as [[c2 n2] H2]
    by (apply step_not_XEC_returns; vm_compute; discriminate).
  rewrite (step_fuel_mono 1 (S fuel) _ _ ltac:(lia) H1).
  rewrite (step_fuel_mono 0 fuel _ _ ltac:(lia) H2).
  rewrite H1 in Hcode. rewrite H2 in Href.
  cbn [option_map fst] in Hcode, Href.
  injection Hcode as HA1 _. injection Href as HA2 _.
  unfold observable. intros Hobs.
  injection Hobs as HA _. rewrite HA1, HA2 in HA. discriminate HA.
Qed.

(** ** Cycle accounting *)

Lemma execute_cycles nested op instr ea cpu cpu' c :
  op <> OP_XEC ->
  execute nested op instr ea cpu = Some (cpu', c) ->
  cycles cpu' = cycles cpu.
Proof.
  intros Hop. unfold execute.
  repeat case_match; intros [= <- <-]; try reflexivity.
  exfalso. apply Hop, Z.eqb_eq. assumption.
Qed.

(** Outside XEC the returned value is what the counter gained. *)
Lemma step_cycles_direct fuel cpu cpu' c :
  halted cpu = false -> fetched_opcode cpu <> OP_XEC ->
  ddp24_step fuel cpu = Some (cpu', c) ->
  cycles cpu' = wrap64 (cycles cpu + c).
Proof.
  intros Hh Hop. rewrite step_running by assumption.
  destruct (execute _ _ _ _ _) as [[s n]|] eqn:Hex; [|discriminate].
  intros [= <- <-]. apply execute_cycles in Hex; [|assumption].
  fields. rewrite Hex. reflexivity.
Qed.

(** Through one XEC the counter gains the nested cost twice. *)
Lemma step_cycles_XEC fuel cpu cpu' c :
  halted cpu = false -> fetched_opcode cpu = OP_XEC ->
  fetched_opcode (xec_entry cpu) <> OP_XEC ->
  ddp24_step (S fuel) cpu = Some (cpu', c) ->
  cycles cpu' = wrap64 (wrap64 (cycles cpu + (c - 5)) + c).
Proof.
  intros Hh Hop Hnext Hs.
  destruct (XEC_as_coded fuel cpu cpu' c Hh Hop Hs)
    as (cpu2 & c2 & Hs2 & _ & -> & ->).
  apply step_cycles_direct in Hs2; [|assumption|assumption].
  rewrite Hs2. change (cycles (xec_entry cpu)) with (cycles cpu).
  do 3 f_equal. lia.
Qed.

(** C4. On [prog_xec] the step returns 10 (5 for XEC and 5 for the NOP it
    executes) while the cycle counter advances by 15: the nested
    activation has already added its 5 when the outer one adds 10. *)
Theorem XEC_counts_nested_cycles_twice :
  halted prog_xec = false /\
  option_map (fun r => (snd r, cycles (fst r) - cycles prog_xec))
    (ddp24_step 1 prog_xec) = Some (10, 15).
Proof. split; [reflexivity | vm_compute; reflexivity]. Qed.

(** ** The invariant on a sample run *)

Lemma machine_width_invariant_witness :
  exists cpu' c,
    ddp24_step 0 (ddp24_reset prog_load_store) = Some (cpu', c) /\
    machine_width cpu'.
Proof.
  assert (reachable (ddp24_reset prog_load_store)) as Hreach.
  { apply reach_reset. unfold prog_load_store, load_words.
    cbn [fold_left fst snd]. repeat apply reach_write. apply reach_init. }
  destruct (step_not_XEC_returns 0 (ddp24_reset prog_load_store))
    as [[cpu' c] Hstep].
  { vm_compute. discriminate. }
  exists cpu', c. split; [exact Hstep|].
  apply (machine_width_invariant cpu').
  exact (reach_step _ _ _ _ Hreach Hstep).
Defined.

(** * Further properties of the code *)

(** ** Sign-magnitude conversions *)

Lemma land_SIGN_cases x : Z.land x SIGN_BIT = 0 \/ Z.land x SIGN_BIT = SIGN_BIT.
Proof.
  destruct (Z.testbit x 23) eqn:Hbit; [right|left];
    apply Z.bits_inj'; intros n Hn; rewrite Z.land_spec;
    change SIGN_BIT with (2 ^ 23); rewrite ?Z.bits_0, Z.pow2_bits_eqb by lia;
    destruct (Z.eqb_spec 23 n) as [<-|Hne];
    rewrite ?Hbit, ?andb_false_r; reflexivity.
Qed.

Lemma land_WORD_MAG x :
  Z.land (Z.land x WORD_MASK) MAGNITUDE_MASK = Z.land x MAGNITUDE_MASK.
Proof. rewrite <- Z.land_assoc. reflexivity. Qed.

Lemma land_WORD_SIGN x :
  Z.land (Z.land x WORD_MASK) SIGN_BIT = Z.land x SIGN_BIT.
Proof. rewrite <- Z.land_assoc. reflexivity. Qed.

(** A 24-bit word is its sign bit together with its magnitude. *)
Lemma word_split x :
  Z.land x WORD_MASK = Z.lor (Z.land x SIGN_BIT) (Z.land x MAGNITUDE_MASK).
Proof. rewrite <- Z.land_lor_distr_r. reflexivity. Qed.

Lemma to_signed_range w : - 0x7FFFFF <= to_signed w <= 0x7FFFFF.
Proof.
  unfold to_signed. pose proof (fits_MAG (Z.land w WORD_MASK)) as Hm.
  unfold fits in Hm. destruct (negb _); lia.
Qed.

(** X1. Converting a word to a host integer and back gives the word
    masked to 24 bits, except that a word of magnitude zero (either zero)
    comes back as positive zero; the host integer is within
    +/-(2^23 - 1). *)
Theorem from_signed_to_signed w :
  from_signed (to_signed w) =
    (if Z.land w MAGNITUDE_MASK =? 0 then 0 else Z.land w WORD_MASK) /\
  - 0x7FFFFF <= to_signed w <= 0x7FFFFF.
Proof.
  split; [|apply to_signed_range].
  unfold to_signed, from_signed.
  rewrite land_WORD_MAG, land_WORD_SIGN, (word_split w).
  pose proof (fits_MAG w) as Hm. unfold fits in Hm.
  pose proof (land_MAG_small false _ (fits_MAG w)) as Hmm.
  destruct (land_SIGN_cases w) as [Hs|Hs]; rewrite Hs; cbn [Z.eqb negb].
  - destruct (Z.ltb_spec (Z.land w MAGNITUDE_MASK) 0); [lia|].
    rewrite Hmm, Z.lor_0_l.
    destruct (Z.eqb_spec (Z.land w MAGNITUDE_MASK) 0); congruence.
  - change (SIGN_BIT =? 0) with false. cbn [negb].
    destruct (Z.eqb_spec (Z.land w MAGNITUDE_MASK) 0) as [Hz|Hz].
    + rewrite Hz. reflexivity.
    + destruct (Z.ltb_spec (- Z.land w MAGNITUDE_MASK) 0); [|lia].
      rewrite Z.opp_involutive, Hmm. reflexivity.
Qed.

Lemma to_signed_from_signed_small v :
  - 0x7FFFFF <= v <= 0x7FFFFF -> to_signed (from_signed v) = v.
Proof.
  intros Hv. unfold from_signed.
  destruct (Z.ltb_spec v 0) as [Hneg|Hpos].
  - assert (fits 23 (- v)) as Hm by (unfold fits; lia).
    rewrite (land_MAG_small false _ Hm), (lor_SIGN_BIT _ Hm).
    unfold to_signed. rewrite land_WORD_MAG, land_WORD_SIGN.
    pose proof (sm_sign true (- v) Hm) as Hsign. unfold sign_set in Hsign.
    cbv beta iota in Hsign. rewrite Hsign.
    pose proof (sm_magnitude true (- v) Hm) as Hmag.
    cbv beta iota in Hmag. rewrite Hmag. lia.
  - assert (fits 23 v) as Hm by (unfold fits; lia).
    rewrite (land_MAG_small false _ Hm).
    unfold to_signed. rewrite land_WORD_MAG, land_WORD_SIGN.
    rewrite (land_SIGN_small false _ Hm), (land_MAG_small false _ Hm). reflexivity.
Qed.

(** X2. Every host integer within +/-(2^23 - 1) survives the conversion to
    a sign-magnitude word and back. *)
Theorem to_signed_from_signed v :
  - 0x7FFFFF <= v <= 0x7FFFFF -> to_signed (from_signed v) = v.
Proof. apply to_signed_from_signed_small. Qed.

Lemma to_signed_from_signed_witness :
  to_signed (from_signed (- 0x7FFFFF)) = - 0x7FFFFF.
Proof. apply (to_signed_from_signed (- 0x7FFFFF)). lia. Defined.

(** ** Memory access and reset *)

Lemma mem_index_lt addr (mem : list Z) :
  length mem = Z.to_nat MEM_SIZE ->
  (Z.to_nat (Z.land addr (MEM_SIZE - 1)) < length mem)%nat.
Proof.
  intros ->. pose proof (fits_land_ones 15 addr ltac:(lia)) as Hb.
  change (Z.ones 15) with (MEM_SIZE - 1) in Hb. unfold fits in Hb.
  apply Z2Nat.inj_lt; unfold MEM_SIZE in *; lia.
Qed.

Lemma read_write cpu addr value addr' :
  length (memory cpu) = Z.to_nat MEM_SIZE ->
  ddp24_read (ddp24_write cpu addr value) addr' =
    if Z.land addr (MEM_SIZE - 1) =? Z.land addr' (MEM_SIZE - 1)
    then Z.land value WORD_MASK
    else ddp24_read cpu addr'.
Proof.
  intros Hlen. unfold ddp24_read, ddp24_write, sub, upd. fields.
  destruct (Z.eqb_spec (Z.land addr (MEM_SIZE - 1))
              (Z.land addr' (MEM_SIZE - 1))) as [Heq|Hne].
  - rewrite <- Heq, list_lookup_insert_eq by (apply mem_index_lt, Hlen).
    cbn [default id]. rewrite <- Z.land_assoc. reflexivity.
  - rewrite list_lookup_insert_ne; [reflexivity|].
    intros Heq. apply Hne. apply Z2Nat.inj in Heq; [exact Heq| |].
    + apply (fits_land_ones 15 addr). lia.
    + apply (fits_land_ones 15 addr'). lia.
Qed.

(** X3. On a processor whose memory has its 32768 words, a read after a
    write returns the written value masked to 24 bits when the two
    addresses agree in their low 15 bits, and what it returned before the
    write otherwise. *)
Theorem read_after_write cpu addr value addr' :
  length (memory cpu) = Z.to_nat MEM_SIZE ->
  ddp24_read (ddp24_write cpu addr value) addr' =
    if Z.land addr (MEM_SIZE - 1) =? Z.land addr' (MEM_SIZE - 1)
    then Z.land value WORD_MASK
    else ddp24_read cpu addr'.
Proof. apply read_write. Qed.

Lemma read_after_write_witness :
  ddp24_read (ddp24_write ddp24_init 0x8123 0xFFABCDEF) 0x123 = 0xABCDEF /\
  ddp24_read (ddp24_write ddp24_init 0x8123 0xFFABCDEF) 0x124 = 0.
Proof.
  split.
  - rewrite (read_after_write ddp24_init 0x8123 0xFFABCDEF 0x123);
      [reflexivity | apply length_replicate].
  - rewrite (read_after_write ddp24_init 0x8123 0xFFABCDEF 0x124);
      [reflexivity | apply length_replicate].
Defined.

(** X4. Reset of a processor with its four index registers gives the
    freshly constructed processor holding the memory the processor had:
    registers, PC, flags and cycle counter are cleared, memory is kept. *)
Theorem reset_is_init_with_memory cpu :
  length (X cpu) = 4%nat ->
  ddp24_reset cpu = set_memory (memory cpu) ddp24_init.
Proof.
  destruct cpu as [a b x pc mem o h i c]. cbn [X memory].
  destruct x as [|x0 [|x1 [|x2 [|x3 [|x4 x]]]]]; try discriminate.
  intros _. reflexivity.
Qed.

Lemma reset_is_init_with_memory_witness :
  ddp24_reset prog_mpy = set_memory (memory prog_mpy) ddp24_init.
Proof. apply (reset_is_init_with_memory prog_mpy). reflexivity. Defined.

(** ** Instruction decode *)

Lemma land_pow2_bit x k :
  0 <= k -> Z.land x (2 ^ k) = (x / 2 ^ k) mod 2 * 2 ^ k.
Proof.
  intros Hk. rewrite <- Z.testbit_spec' by assumption.
  destruct (Z.testbit x k) eqn:Hbit; cbn [Z.b2z];
    apply Z.bits_inj'; intros n Hn; rewrite Z.land_spec;
    rewrite ?Z.mul_1_l, ?Z.mul_0_l, ?Z.bits_0, Z.pow2_bits_eqb by lia;
    destruct (Z.eqb_spec k n) as [<-|Hne];
    rewrite ?Hbit, ?andb_false_r; reflexivity.
Qed.

Lemma decode_fields_sum w :
  fits 24 w ->
  fits 6 (decode_opcode w) /\ fits 2 (decode_index w) /\
  fits 15 (decode_address w) /\
  w = decode_opcode w * 2 ^ 18
      + (if decode_indirect w then 2 ^ 17 else 0)
      + decode_index w * 2 ^ 15 + decode_address w.
Proof.
  intros Hw. unfold decode_opcode, decode_index, decode_address,
    decode_indirect, OP_SHIFT, INDEX_SHIFT.
  change OP_MASK with (Z.ones 6). change INDEX_MASK with (Z.ones 2).
  change ADDR_MASK with (Z.ones 15). change INDIRECT_BIT with (2 ^ 17).
  split; [apply fits_land_ones; lia|].
  split; [apply fits_land_ones; lia|].
  split; [apply fits_land_ones; lia|].
  rewrite !Z.land_ones, !Z.shiftr_div_pow2, land_pow2_bit by lia.
  unfold fits in Hw.
  assert (((w / 2 ^ 17) mod 2 * 2 ^ 17 =? 0) = ((w / 2 ^ 17) mod 2 =? 0))
    as -> by (destruct (Z.eqb_spec ((w / 2 ^ 17) mod 2) 0) as [->|];
              [reflexivity | apply Z.eqb_neq; lia]).
  change (2 ^ 6) with 64. change (2 ^ 2) with 4.
  change (2 ^ 15) with 32768. change (2 ^ 17) with 131072.
  change (2 ^ 18) with 262144. change (2 ^ 24) with 16777216 in Hw.
  destruct (Z.eqb_spec ((w / 131072) mod 2) 0) as [Hb|Hb]; cbn [negb];
    Z.div_mod_to_equations; lia.
Qed.

(** X5. The four fields partition a 24-bit instruction word: the opcode
    is a 6-bit value, the index a 2-bit value, the address a 15-bit
    value, and the word is opcode * 2^18 + indirect * 2^17 +
    index * 2^15 + address. *)
Theorem decode_fields w :
  fits 24 w ->
  fits 6 (decode_opcode w) /\ fits 2 (decode_index w) /\
  fits 15 (decode_address w) /\
  w = decode_opcode w * 2 ^ 18
      + (if decode_indirect w then 2 ^ 17 else 0)
      + decode_index w * 2 ^ 15 + decode_address w.
Proof. apply decode_fields_sum. Qed.

Lemma decode_fields_witness :
  0xF3ABCD = decode_opcode 0xF3ABCD * 2 ^ 18
             + (if decode_indirect 0xF3ABCD then 2 ^ 17 else 0)
             + decode_index 0xF3ABCD * 2 ^ 15 + decode_address 0xF3ABCD.
Proof.
  destruct (decode_fields 0xF3ABCD) as (_ & _ & _ & H);
    [unfold fits; lia | exact H].
Defined.

(** X6. The word the tests assemble as [(op << OP_SHIFT) | addr] decodes
    to that opcode and that address, with index 0 and no indirection. *)
Theorem decode_instr_word op addr :
  fits 6 op -> fits 15 addr ->
  decode_opcode (instr_word op addr) = op /\
  decode_address (instr_word op addr) = addr /\
  decode_index (instr_word op addr) = 0 /\
  decode_indirect (instr_word op addr) = false /\
  fits 24 (instr_word op addr).
Proof.
  intros Hop Haddr.
  assert (instr_word op addr = op * 2 ^ 18 + addr) as Hword.
  { unfold instr_word, OP_SHIFT. apply lor_shiftl_add; [lia|].
    apply (fits_mono 15); [lia | exact Haddr]. }
  assert (fits 24 (instr_word op addr)) as Hfits.
  { rewrite Hword. unfold fits in *. lia. }
  destruct (decode_fields_sum _ Hfits) as (Ho & Hi & Ha & Hsum).
  rewrite Hword in Hsum at 1.
  unfold fits in *.
  destruct (decode_indirect (instr_word op addr)).
  - exfalso. lia.
  - repeat split; try lia.
Qed.

Lemma decode_instr_word_witness :
  decode_opcode (instr_word OP_JMP 0x7FFF) = OP_JMP /\
  decode_address (instr_word OP_JMP 0x7FFF) = 0x7FFF.
Proof.
  destruct (decode_instr_word OP_JMP 0x7FFF) as (Ho & Ha & _);
    [unfold fits; vm_compute; split; [discriminate | reflexivity]
    |unfold fits; lia|].
  split; assumption.
Defined.

(** ** Effective address *)

Lemma land_ADDR x : Z.land x ADDR_MASK = x mod 2 ^ 15.
Proof. change ADDR_MASK with (Z.ones 15). apply Z.land_ones. lia. Qed.

(** X7. The effective address is always a 15-bit value.  It is the
    address field, to which the selected index register is added modulo
    2^15 when the index field is not 0; with the indirect bit set, it is
    the low 15 bits of the memory word at that address (indexing comes
    before indirection, and there is one level of indirection). *)
Theorem effective_address_value cpu instr :
  fits 15 (effective_address cpu instr) /\
  effective_address cpu instr =
    (let a :=
       if 0 <? decode_index instr
       then (decode_address instr + sub (X cpu) (decode_index instr))
            mod 2 ^ 15
       else decode_address instr in
     if decode_indirect instr then ddp24_read cpu a mod 2 ^ 15 else a).
Proof.
  split; [apply fits_effective_address|].
  unfold effective_address. cbv zeta.
  rewrite land_wrap32_ADDR, land_ADDR. reflexivity.
Qed.

(** ** ADD and SUB *)

Lemma read_set_PC v cpu a : ddp24_read (set_PC v cpu) a = ddp24_read cpu a.
Proof. reflexivity. Qed.

Lemma from_signed_sm v :
  from_signed v = (if v <? 0 then SIGN_BIT else 0) + Z.abs v mod 2 ^ 23.
Proof.
  unfold from_signed. change MAGNITUDE_MASK with (Z.ones 23).
  rewrite !Z.land_ones by lia.
  destruct (Z.ltb_spec v 0).
  - rewrite Z.abs_neq by lia. apply lor_SIGN_BIT.
    unfold fits. apply Z.mod_pos_bound. lia.
  - rewrite Z.abs_eq by lia. reflexivity.
Qed.

Lemma to_signed_sm (neg : bool) m :
  fits 23 m ->
  to_signed ((if neg then SIGN_BIT else 0) + m) = if neg then - m else m.
Proof.
  intros Hm. unfold to_signed. rewrite land_WORD_MAG, land_WORD_SIGN.
  pose proof (sm_sign neg m Hm) as Hsign. unfold sign_set in Hsign.
  rewrite Hsign, (sm_magnitude neg m Hm). reflexivity.
Qed.

(** What [from_signed] keeps of a host integer of any size. *)
Lemma to_signed_from_signed_wrap v :
  to_signed (from_signed v) =
    if v <? 0 then - (Z.abs v mod 2 ^ 23) else Z.abs v mod 2 ^ 23.
Proof.
  rewrite from_signed_sm. apply to_signed_sm.
  unfold fits. apply Z.mod_pos_bound. lia.
Qed.

(** The stored result of an addition or subtraction of two words. *)
Lemma signed_result v :
  - 2 ^ 24 < v < 2 ^ 24 ->
  (Z.abs v <= 0x7FFFFF -> to_signed (from_signed v) = v) /\
  (0x7FFFFF < Z.abs v -> to_signed (from_signed v) = v - Z.sgn v * 2 ^ 23).
Proof.
  intros Hv. rewrite to_signed_from_signed_wrap. split; intros Habs.
  - rewrite Z.mod_small by lia. destruct (Z.ltb_spec v 0); lia.
  - assert (Z.abs v mod 2 ^ 23 = Z.abs v - 2 ^ 23) as ->.
    { symmetry. apply (Z.mod_unique_pos _ _ 1); lia. }
    destruct (Z.ltb_spec v 0); lia.
Qed.

Lemma signed_sum_range a b : - 2 ^ 24 < to_signed a + to_signed b < 2 ^ 24.
Proof. pose proof (to_signed_range a). pose proof (to_signed_range b). lia. Qed.

Lemma signed_diff_range a b : - 2 ^ 24 < to_signed a - to_signed b < 2 ^ 24.
Proof. pose proof (to_signed_range a). pose proof (to_signed_range b). lia. Qed.

Lemma overflow_test v :
  ((0x7FFFFF <? v) || (v <? - 0x7FFFFF)) = (0x7FFFFF <? Z.abs v).
Proof.
  destruct (Z.ltb_spec 0x7FFFFF v), (Z.ltb_spec v (- 0x7FFFFF)),
    (Z.ltb_spec 0x7FFFFF (Z.abs v)); cbn [orb]; try reflexivity; lia.
Qed.

Lemma execute_ADD nested instr ea cpu :
  execute nested OP_ADD instr ea cpu =
  let result := to_signed (A cpu) + to_signed (ddp24_read cpu ea) in
  Some (set_A (from_signed result)
          (if 0x7FFFFF <? Z.abs result then set_overflow true cpu else cpu),
        10).
Proof.
  unfold execute. cbv zeta.
  rewrite (overflow_test (to_signed (A cpu) + to_signed (ddp24_read cpu ea))).
  reflexivity.
Qed.

Lemma execute_SUB nested instr ea cpu :
  execute nested OP_SUB instr ea cpu =
  let result := to_signed (A cpu) - to_signed (ddp24_read cpu ea) in
  Some (set_A (from_signed result)
          (if 0x7FFFFF <? Z.abs result then set_overflow true cpu else cpu),
        10).
Proof.
  unfold execute. cbv zeta.
  rewrite (overflow_test (to_signed (A cpu) - to_signed (ddp24_read cpu ea))).
  reflexivity.
Qed.





(** ** Proper divide *)

Lemma sign_apply (c : bool) m :
  fits 23 m ->
  (if c then Z.lor SIGN_BIT m else m) = (if c then SIGN_BIT else 0) + m.
Proof. intros Hm. destruct c; [apply lor_SIGN_BIT, Hm | reflexivity]. Qed.

(** The DIV case past the improper-divide test. *)
Lemma execute_DIV_proper nested instr ea cpu :
  (Z.land (ddp24_read cpu ea) MAGNITUDE_MASK
     <=? Z.land (A cpu) MAGNITUDE_MASK) = false ->
  let d := Z.land (ddp24_read cpu ea) MAGNITUDE_MASK in
  let dividend :=
    Z.land (A cpu) MAGNITUDE_MASK * 2 ^ 23 + Z.land (B cpu) MAGNITUDE_MASK in
  let qsign :=
    xorb (sign_set (A cpu)) (sign_set (ddp24_read cpu ea))
    && negb (dividend / d =? 0) in
  let rsign := sign_set (A cpu) && negb (dividend mod d =? 0) in
  execute nested OP_DIV instr ea cpu =
  Some (set_A ((if rsign then SIGN_BIT else 0) + dividend mod d)
          (set_B ((if qsign then SIGN_BIT else 0) + dividend / d) cpu), 44).
Proof.
  intros Hlt d dividend qsign rsign.
  destruct (div_results (A cpu) (B cpu) (ddp24_read cpu ea) Hlt) as [Hq Hr].
  rewrite div_dividend in Hq, Hr by apply fits_MAG.
  fold dividend in Hq, Hr. fold d in Hq, Hr.
  assert (fits 23 (dividend / d) /\ fits 23 (dividend mod d)) as [Hq' Hr'].
  { apply div_proper_bounds; try apply fits_MAG.
    apply Z.leb_gt in Hlt. exact Hlt. }
  rewrite (wrap32_small _ Hq') in Hq. rewrite (wrap32_small _ Hr') in Hr.
  unfold execute. cbv zeta. rewrite Hlt.
  rewrite div_dividend by apply fits_MAG.
  fold dividend. fold d.
  rewrite (wrap32_small _ Hq'), (wrap32_small _ Hr').
  fold qsign. fold rsign.
  rewrite (sign_apply qsign _ Hq'), (sign_apply rsign _ Hr').
  reflexivity.
Qed.

(** X10. DIV: a running processor that fetches DIV while magnitude(A) <
    magnitude(mem[ea]) divides the 46-bit value magnitude(A) * 2^23 +
    magnitude(B) by magnitude(mem[ea]): the quotient becomes the
    magnitude of B and the remainder, smaller than the divisor, the
    magnitude of A.  B is negative when the signs of A and mem[ea] differ
    and the quotient is not zero, A when A was negative and the remainder
    is not zero.  [overflow] is untouched and the step returns 44. *)
Theorem DIV_semantics fuel cpu :
  halted cpu = false -> fetched_opcode cpu = OP_DIV ->
  Z.land (A cpu) MAGNITUDE_MASK
    < Z.land (ddp24_read cpu (fetched_ea cpu)) MAGNITUDE_MASK ->
  let operand := ddp24_read cpu (fetched_ea cpu) in
  let d := Z.land operand MAGNITUDE_MASK in
  let dividend :=
    Z.land (A cpu) MAGNITUDE_MASK * 2 ^ 23 + Z.land (B cpu) MAGNITUDE_MASK in
  exists cpu',
    ddp24_step fuel cpu = Some (cpu', 44) /\
    Z.land (B cpu') MAGNITUDE_MASK = dividend / d /\
    Z.land (A cpu') MAGNITUDE_MASK = dividend mod d /\
    dividend
      = Z.land (B cpu') MAGNITUDE_MASK * d + Z.land (A cpu') MAGNITUDE_MASK /\
    Z.land (A cpu') MAGNITUDE_MASK < d /\
    sign_set (B cpu')
      = xorb (sign_set (A cpu)) (sign_set operand)
        && negb (dividend / d =? 0) /\
    sign_set (A cpu') = sign_set (A cpu) && negb (dividend mod d =? 0) /\
    fits 24 (A cpu') /\ fits 24 (B cpu') /\
    overflow cpu' = overflow cpu /\ halted cpu' = false /\
    memory cpu' = memory cpu /\ X cpu' = X cpu.
Proof.
  intros Hh Hop Hlt operand d dividend.
  assert (fits 23 (dividend / d) /\ fits 23 (dividend mod d)) as [Hq Hr].
  { apply div_proper_bounds; try apply fits_MAG. exact Hlt. }
  assert (0 < d) as Hd by (pose proof (fits_MAG (A cpu)) as Hm;
                           unfold fits in Hm; unfold d, operand; lia).
  rewrite step_running, Hop by assumption.
  pose proof (execute_DIV_proper (nested_call fuel) (fetched cpu)
                (fetched_ea cpu) (advance_PC cpu)) as Hex.
  cbv zeta in Hex.
  change (ddp24_read (advance_PC cpu) (fetched_ea cpu)) with operand in Hex.
  change (A (advance_PC cpu)) with (A cpu) in Hex.
  change (B (advance_PC cpu)) with (B cpu) in Hex.
  fold d in Hex. fold dividend in Hex.
  rewrite Hex by (apply Z.leb_gt; exact Hlt). clear Hex.
  eexists. split; [reflexivity|]. fields.
  rewrite !sm_magnitude, !sm_sign by assumption.
  split; [reflexivity|]. split; [reflexivity|].
  split; [rewrite Z.mul_comm; apply Z.div_mod; lia|].
  split; [apply Z.mod_pos_bound; lia|].
  split; [reflexivity|]. split; [reflexivity|].
  split; [apply sm_fits, Hr|]. split; [apply sm_fits, Hq|].
  repeat split; assumption.
Qed.

Lemma DIV_semantics_witness :
  exists cpu',
    ddp24_step 0 prog_div = Some (cpu', 44) /\
    Z.land (B cpu') MAGNITUDE_MASK = 100 /\
    Z.land (A cpu') MAGNITUDE_MASK = 0 /\
    sign_set (B cpu') = true /\ sign_set (A cpu') = false.
Proof.
  destruct (DIV_semantics 0 prog_div)
    as (cpu' & Hs & HB & HA & _ & _ & HsB & HsA & _);
    [reflexivity | reflexivity | vm_compute; reflexivity |].
  exists cpu'. repeat split; assumption.
Defined.

(** ** Shifts *)

Lemma land_SIGN_sign x :
  Z.land x SIGN_BIT = if sign_set x then SIGN_BIT else 0.
Proof.
  unfold sign_set. destruct (land_SIGN_cases x) as [-> | ->]; reflexivity.
Qed.

Lemma land_wrap32_MAG x : Z.land (wrap32 x) MAGNITUDE_MASK = x mod 2 ^ 23.
Proof.
  change MAGNITUDE_MASK with (Z.ones 23). rewrite Z.land_ones by lia.
  unfold wrap32. change (2 ^ 32) with (2 ^ 23 * 2 ^ 9).
  rewrite Z.rem_mul_r by lia.
  rewrite Z.mul_comm, Z.mod_add by lia.
  apply Z.mod_mod. lia.
Qed.

Lemma shift_count ea : Z.land ea 0x1F = ea mod 32.
Proof. apply (Z.land_ones ea 5). lia. Qed.

Lemma shifted_word x m :
  fits 23 m ->
  Z.land (Z.lor (Z.land x SIGN_BIT) m) MAGNITUDE_MASK = m /\
  sign_set (Z.lor (Z.land x SIGN_BIT) m) = sign_set x /\
  fits 24 (Z.lor (Z.land x SIGN_BIT) m).
Proof.
  intros Hm. rewrite land_SIGN_sign, <- (sm_as_lor (sign_set x) m Hm).
  split; [apply sm_magnitude, Hm|].
  split; [apply sm_sign, Hm | apply sm_fits, Hm].
Qed.

(** X11. ARS: the shift count is the effective address modulo 32; the
    magnitude of A is divided by 2^count (so it is 0 from 23 on), the
    sign bit of A stays, and the step returns 5 + count. *)
Theorem ARS_semantics fuel cpu :
  halted cpu = false -> fetched_opcode cpu = OP_ARS ->
  let count := fetched_ea cpu mod 32 in
  exists cpu',
    ddp24_step fuel cpu = Some (cpu', 5 + count) /\
    Z.land (A cpu') MAGNITUDE_MASK
      = Z.land (A cpu) MAGNITUDE_MASK / 2 ^ count /\
    (23 <= count -> Z.land (A cpu') MAGNITUDE_MASK = 0) /\
    sign_set (A cpu') = sign_set (A cpu) /\ fits 24 (A cpu') /\
    B cpu' = B cpu /\ X cpu' = X cpu /\ memory cpu' = memory cpu /\
    overflow cpu' = overflow cpu /\ halted cpu' = false.
Proof.
  intros Hh Hop count.
  assert (0 <= count < 32) as Hc by (apply Z.mod_pos_bound; lia).
  assert (fits 23 (Z.land (A cpu) MAGNITUDE_MASK / 2 ^ count)) as Hm.
  { rewrite <- Z.shiftr_div_pow2 by lia.
    apply fits_shiftr; [lia | apply fits_MAG]. }
  rewrite step_running, Hop by assumption.
  change (execute (nested_call fuel) OP_ARS (fetched cpu) (fetched_ea cpu)
            (advance_PC cpu))
    with (Some (set_A
                  (Z.lor (Z.land (A cpu) SIGN_BIT)
                     (Z.shiftr (Z.land (A cpu) MAGNITUDE_MASK)
                        (Z.land (fetched_ea cpu) 0x1F)))
                  (advance_PC cpu),
                5 + Z.land (fetched_ea cpu) 0x1F)).
  rewrite shift_count. fold count. rewrite Z.shiftr_div_pow2 by lia.
  eexists. split; [reflexivity|]. fields.
  destruct (shifted_word (A cpu) _ Hm) as (Hmag & Hsign & Hfits).
  split; [exact Hmag|].
  split.
  { intros Hbig. rewrite Hmag. apply Z.div_small.
    pose proof (fits_MAG (A cpu)) as Ha. unfold fits in Ha.
    split; [lia|]. eapply Z.lt_le_trans; [apply Ha|].
    apply Z.pow_le_mono_r; lia. }
  split; [exact Hsign|]. split; [exact Hfits|].
  repeat split; assumption.
Qed.

Lemma ARS_semantics_witness :
  exists cpu',
    ddp24_step 0 prog_ars = Some (cpu', 7) /\
    Z.land (A cpu') MAGNITUDE_MASK = 3 /\ sign_set (A cpu') = true.
Proof.
  destruct (ARS_semantics 0 prog_ars)
    as (cpu' & Hs & HA & _ & HsA & _); [reflexivity | reflexivity |].
  exists cpu'. repeat split; assumption.
Defined.

(** X12. ALS: the shift count is the effective address modulo 32; the
    magnitude of A is multiplied by 2^count modulo 2^23 (bits shifted
    past bit 22 are lost), the sign bit of A stays, and the step returns
    5 + count. *)
Theorem ALS_semantics fuel cpu :
  halted cpu = false -> fetched_opcode cpu = OP_ALS ->
  let count := fetched_ea cpu mod 32 in
  exists cpu',
    ddp24_step fuel cpu = Some (cpu', 5 + count) /\
    Z.land (A cpu') MAGNITUDE_MASK
      = (Z.land (A cpu) MAGNITUDE_MASK * 2 ^ count) mod 2 ^ 23 /\
    sign_set (A cpu') = sign_set (A cpu) /\ fits 24 (A cpu') /\
    B cpu' = B cpu /\ X cpu' = X cpu /\ memory cpu' = memory cpu /\
    overflow cpu' = overflow cpu /\ halted cpu' = false.
Proof.
  intros Hh Hop count.
  assert (0 <= count < 32) as Hc by (apply Z.mod_pos_bound; lia).
  assert (fits 23 ((Z.land (A cpu) MAGNITUDE_MASK * 2 ^ count) mod 2 ^ 23))
    as Hm by (unfold fits; apply Z.mod_pos_bound; lia).
  rewrite step_running, Hop by assumption.
  change (execute (nested_call fuel) OP_ALS (fetched cpu) (fetched_ea cpu)
            (advance_PC cpu))
    with (Some (set_A
                  (Z.lor (Z.land (A cpu) SIGN_BIT)
                     (Z.land
                        (wrap32 (Z.shiftl (Z.land (A cpu) MAGNITUDE_MASK)
                                   (Z.land (fetched_ea cpu) 0x1F)))
                        MAGNITUDE_MASK))
                  (advance_PC cpu),
                5 + Z.land (fetched_ea cpu) 0x1F)).
  rewrite shift_count. fold count.
  rewrite land_wrap32_MAG, Z.shiftl_mul_pow2 by lia.
  eexists. split; [reflexivity|]. fields.
  destruct (shifted_word (A cpu) _ Hm) as (Hmag & Hsign & Hfits).
  split; [exact Hmag|]. split; [exact Hsign|]. split; [exact Hfits|].
  repeat split; assumption.
Qed.

Lemma ALS_semantics_witness :
  exists cpu',
    ddp24_step 0 prog_als = Some (cpu', 25) /\
    Z.land (A cpu') MAGNITUDE_MASK = 0x400000 /\ sign_set (A cpu') = true.
Proof.
  destruct (ALS_semantics 0 prog_als)
    as (cpu' & Hs & HA & HsA & _); [reflexivity | reflexivity |].
  exists cpu'. repeat split; assumption.
Defined.

(** ** Stores, loads and the subroutine link *)

Lemma land_WORD_small w : fits 24 w -> Z.land w WORD_MASK = w.
Proof. intros Hw. apply (fits_iff_land 24 w); [lia | exact Hw]. Qed.

Lemma land_ADDR_small w : fits 15 w -> Z.land w ADDR_MASK = w.
Proof. intros Hw. apply (fits_iff_land 15 w); [lia | exact Hw]. Qed.

Lemma land_MEM_small w : fits 15 w -> Z.land w (MEM_SIZE - 1) = w.
Proof. intros Hw. apply (fits_iff_land 15 w); [lia | exact Hw]. Qed.

Lemma step_STA fuel cpu :
  halted cpu = false -> fetched_opcode cpu = OP_STA ->
  exists cpu1,
    ddp24_step fuel cpu = Some (cpu1, 10) /\
    halted cpu1 = false /\ A cpu1 = A cpu /\
    forall a, ddp24_read cpu1 a
              = ddp24_read (ddp24_write cpu (fetched_ea cpu) (A cpu)) a.
Proof.
  intros Hh Hop. rewrite step_running, Hop by assumption.
  eexists. split; [reflexivity|]. fields.
  split; [exact Hh|]. split; reflexivity.
Qed.

Lemma step_LDA fuel cpu :
  halted cpu = false -> fetched_opcode cpu = OP_LDA ->
  exists cpu',
    ddp24_step fuel cpu = Some (cpu', 10) /\
    A cpu' = ddp24_read cpu (fetched_ea cpu).
Proof.
  intros Hh Hop. rewrite step_running, Hop by assumption.
  eexists. split; reflexivity.
Qed.

(** X13. STA followed by LDA of the same effective address: after the
    STA the memory word at that address reads as A masked to 24 bits, and
    the LDA brings that value back into A. *)
Theorem STA_then_LDA fuel cpu cpu1 c1 :
  halted cpu = false -> fetched_opcode cpu = OP_STA ->
  length (memory cpu) = Z.to_nat MEM_SIZE ->
  ddp24_step fuel cpu = Some (cpu1, c1) ->
  fetched_opcode cpu1 = OP_LDA -> fetched_ea cpu1 = fetched_ea cpu ->
  ddp24_read cpu1 (fetched_ea cpu) = Z.land (A cpu) WORD_MASK /\
  exists cpu2,
    ddp24_step fuel cpu1 = Some (cpu2, 10) /\
    A cpu2 = Z.land (A cpu) WORD_MASK.
Proof.
  intros Hh Hop Hlen Hs Hop1 Hea1.
  destruct (step_STA fuel cpu Hh Hop) as (s & Hs' & Hh1 & _ & Hread).
  rewrite Hs in Hs'. injection Hs' as <- _.
  assert (ddp24_read cpu1 (fetched_ea cpu) = Z.land (A cpu) WORD_MASK)
    as Hword.
  { rewrite Hread, read_write, Z.eqb_refl by exact Hlen. reflexivity. }
  split; [exact Hword|].
  destruct (step_LDA fuel cpu1 Hh1 Hop1) as (cpu2 & Hs2 & HA2).
  exists cpu2. split; [exact Hs2|].
  rewrite HA2, Hea1. exact Hword.
Qed.

Lemma STA_then_LDA_witness :
  exists cpu1 cpu2,
    ddp24_step 0 prog_sta_lda = Some (cpu1, 10) /\
    ddp24_step 0 cpu1 = Some (cpu2, 10) /\ A cpu2 = 0xABCDEF.
Proof.
  destruct (step_STA 0 prog_sta_lda) as (cpu1 & Hs & _);
    [reflexivity | reflexivity |].
  rewrite (step_running 0 prog_sta_lda eq_refl) in Hs.
  destruct (STA_then_LDA 0 prog_sta_lda cpu1 10) as (_ & cpu2 & Hs2 & HA);
    [reflexivity | reflexivity | apply length_insert
    | rewrite (step_running 0 prog_sta_lda eq_refl); exact Hs
    | injection Hs as <-; vm_compute; reflexivity
    | injection Hs as <-; vm_compute; reflexivity |].
  exists cpu1, cpu2.
  split; [rewrite (step_running 0 prog_sta_lda eq_refl); exact Hs|].
  split; assumption.
Defined.

Lemma step_JSL fuel cpu :
  halted cpu = false -> fetched_opcode cpu = OP_JSL ->
  exists cpu1,
    ddp24_step fuel cpu = Some (cpu1, 10) /\
    halted cpu1 = false /\ X cpu1 = X cpu /\
    PC cpu1 = (fetched_ea cpu + 1) mod 2 ^ 15 /\
    forall a, ddp24_read cpu1 a
              = ddp24_read (ddp24_write cpu (fetched_ea cpu)
                              (PC (advance_PC cpu))) a.
Proof.
  intros Hh Hop. rewrite step_running, Hop by assumption.
  eexists. split; [reflexivity|]. fields.
  split; [exact Hh|]. split; [reflexivity|].
  split; [apply land_wrap32_ADDR | reflexivity].
Qed.

Lemma step_JMP fuel cpu :
  halted cpu = false -> fetched_opcode cpu = OP_JMP ->
  exists cpu',
    ddp24_step fuel cpu = Some (cpu', 5) /\ PC cpu' = fetched_ea cpu.
Proof.
  intros Hh Hop. rewrite step_running, Hop by assumption.
  eexists. split; reflexivity.
Qed.

Lemma succ_mod_neq e : fits 15 e -> (e + 1) mod 2 ^ 15 <> e.
Proof.
  unfold fits. intros He.
  destruct (Z.eq_dec e (2 ^ 15 - 1)) as [->|Hne].
  - change ((2 ^ 15 - 1 + 1) mod 2 ^ 15) with 0. lia.
  - rewrite Z.mod_small by lia. lia.
Qed.

Lemma read_mod cpu a : ddp24_read cpu (a mod 2 ^ 15) = ddp24_read cpu a.
Proof.
  unfold ddp24_read. change (MEM_SIZE - 1) with (Z.ones 15).
  rewrite !Z.land_ones, Z.mod_mod by lia. reflexivity.
Qed.

(** X14. Subroutine call and return: JSL to [e] stores the address of the
    word after the JSL at [e] and continues at [e + 1]; when the word
    there is an unindexed indirect JMP through [e], the next step returns
    to the word after the JSL. *)
Theorem JSL_then_indirect_JMP fuel cpu w :
  halted cpu = false -> fetched_opcode cpu = OP_JSL ->
  length (memory cpu) = Z.to_nat MEM_SIZE ->
  ddp24_read cpu (fetched_ea cpu + 1) = w ->
  decode_opcode w = OP_JMP -> decode_indirect w = true ->
  decode_index w = 0 -> decode_address w = fetched_ea cpu ->
  exists cpu1 cpu2,
    ddp24_step fuel cpu = Some (cpu1, 10) /\
    PC cpu1 = (fetched_ea cpu + 1) mod 2 ^ 15 /\
    ddp24_read cpu1 (fetched_ea cpu) = (fetch_address cpu + 1) mod 2 ^ 15 /\
    ddp24_step fuel cpu1 = Some (cpu2, 5) /\
    PC cpu2 = (fetch_address cpu + 1) mod 2 ^ 15.
Proof.
  intros Hh Hop Hlen Hw Hjmp Hind Hidx Haddr.
  pose proof (fits_effective_address cpu (fetched cpu)) as He.
  fold (fetched_ea cpu) in He.
  assert (fits 15 (PC (advance_PC cpu))) as Hret by apply fits_ADDR.
  destruct (step_JSL fuel cpu Hh Hop) as (cpu1 & Hs1 & Hh1 & HX1 & HPC1 & Hread).
  assert (ddp24_read cpu1 (fetched_ea cpu) = PC (advance_PC cpu)) as Hlink.
  { rewrite Hread, read_write, Z.eqb_refl by exact Hlen.
    apply land_WORD_small, (fits_mono 15); [lia | exact Hret]. }
  assert (fetched cpu1 = w) as Hf1.
  { unfold fetched. rewrite HPC1, read_mod, Hread, read_write by exact Hlen.
    rewrite (land_MEM_small _ He).
    change (MEM_SIZE - 1) with (Z.ones 15). rewrite Z.land_ones by lia.
    destruct (Z.eqb_spec (fetched_ea cpu) ((fetched_ea cpu + 1) mod 2 ^ 15))
      as [Heq|_]; [|exact Hw].
    exfalso. symmetry in Heq. exact (succ_mod_neq _ He Heq). }
  assert (fetched_ea cpu1 = PC (advance_PC cpu)) as Hea1.
  { unfold fetched_ea, effective_address. rewrite Hf1, Hidx, Hind, Haddr.
    cbn [Z.ltb Z.compare]. rewrite Hlink. apply land_ADDR_small, Hret. }
  destruct (step_JMP fuel cpu1 Hh1) as (cpu2 & Hs2 & HPC2).
  { unfold fetched_opcode. rewrite Hf1. exact Hjmp. }
  exists cpu1, cpu2. rewrite <- PC_advance.
  repeat split; try assumption.
  rewrite HPC2. exact Hea1.
Qed.

Lemma JSL_then_indirect_JMP_witness :
  exists cpu1 cpu2,
    ddp24_step 0 prog_call = Some (cpu1, 10) /\
    PC cpu1 = 0x41 /\ ddp24_read cpu1 0x40 = 8 /\
    ddp24_step 0 cpu1 = Some (cpu2, 5) /\ PC cpu2 = 8.
Proof.
  destruct (JSL_then_indirect_JMP 0 prog_call
              (Z.lor (instr_word OP_JMP 0x40) INDIRECT_BIT))
    as (cpu1 & cpu2 & H);
    [reflexivity | reflexivity | apply length_insert | reflexivity
    | reflexivity | reflexivity | reflexivity | reflexivity |].
  exists cpu1, cpu2. exact H.
Defined.

(** ** Index registers *)

(** X15. LDX on a processor with its four index registers: with index
    field 0 no index register changes (the write to X[0] is not made);
    with index field i > 0, X[i] becomes the low 15 bits of mem[ea] and
    the other index registers, X[0] among them, keep their values.  A, B
    and memory are untouched and the step returns 5. *)
Theorem LDX_semantics fuel cpu :
  halted cpu = false -> fetched_opcode cpu = OP_LDX ->
  length (X cpu) = 4%nat ->
  let i := decode_index (fetched cpu) in
  exists cpu',
    ddp24_step fuel cpu = Some (cpu', 5) /\
    (i = 0 -> X cpu' = X cpu) /\
    (0 < i -> sub (X cpu') i = ddp24_read cpu (fetched_ea cpu) mod 2 ^ 15) /\
    (forall j, 0 <= j -> j <> i -> sub (X cpu') j = sub (X cpu) j) /\
    A cpu' = A cpu /\ B cpu' = B cpu /\ memory cpu' = memory cpu.
Proof.
  intros Hh Hop HX i.
  assert (fits 2 i) as Hi by (apply (fits_land_ones 2); lia).
  unfold fits in Hi.
  rewrite step_running, Hop by assumption.
  change (execute (nested_call fuel) OP_LDX (fetched cpu) (fetched_ea cpu)
            (advance_PC cpu))
    with (Some (if 0 <? i
                then set_X (upd (X cpu) i
                              (Z.land (ddp24_read cpu (fetched_ea cpu))
                                 ADDR_MASK)) (advance_PC cpu)
                else advance_PC cpu, 5)).
  destruct (Z.ltb_spec 0 i) as [Hpos|Hzero];
    (eexists; split; [reflexivity|]); fields.
  - split; [intros; lia|]. unfold sub, upd.
    split.
    { intros _. rewrite list_lookup_insert_eq, land_ADDR; [reflexivity|].
      rewrite HX. change 4%nat with (Z.to_nat 4). apply Z2Nat.inj_lt; lia. }
    split; [|repeat split; reflexivity].
    intros j Hj Hne. rewrite list_lookup_insert_ne; [reflexivity|].
    intros Heq. apply Hne. symmetry. apply Z2Nat.inj; lia.
  - split; [reflexivity|]. split; [intros; lia|].
    repeat split; reflexivity.
Qed.

Lemma LDX_semantics_witness :
  exists cpu',
    ddp24_step 0 prog_ldx = Some (cpu', 5) /\
    sub (X cpu') 2 = 0x2345 /\ sub (X cpu') 0 = 0.
Proof.
  destruct (LDX_semantics 0 prog_ldx) as (cpu' & Hs & _ & H2 & Hother & _);
    [reflexivity | reflexivity | reflexivity |].
  exists cpu'. split; [exact Hs|]. split.
  - apply H2. reflexivity.
  - rewrite (Hother 0); [reflexivity | lia | discriminate].
Defined.

(** ** What a step never does *)

Lemma execute_flags nested op instr ea cpu cpu' c :
  (forall s s' n, nested s = Some (s', n) ->
     (overflow s = true -> overflow s' = true) /\
     interrupt_enabled s' = interrupt_enabled s) ->
  execute nested op instr ea cpu = Some (cpu', c) ->
  (overflow cpu = true -> overflow cpu' = true) /\
  interrupt_enabled cpu' = interrupt_enabled cpu.
Proof.
  intros Hnested. unfold execute.
  repeat case_match; intros [= <- <-]; subst;
    try (split; [intros Ho; try exact Ho; reflexivity | reflexivity]).
  match goal with
  | H : nested _ = Some _ |- _ => apply Hnested in H; exact H
  end.
Qed.

Lemma step_flags fuel : forall cpu cpu' c,
  ddp24_step fuel cpu = Some (cpu', c) ->
  (overflow cpu = true -> overflow cpu' = true) /\
  interrupt_enabled cpu' = interrupt_enabled cpu.
Proof.
  assert (forall fuel' : nat,
            (forall s s' n, nested_call fuel' s = Some (s', n) ->
               (overflow s = true -> overflow s' = true) /\
               interrupt_enabled s' = interrupt_enabled s) ->
            forall cpu cpu' c,
              ddp24_step fuel' cpu = Some (cpu', c) ->
              (overflow cpu = true -> overflow cpu' = true) /\
              interrupt_enabled cpu' = interrupt_enabled cpu) as Hone.
  { intros fuel' Hnested cpu cpu' c. rewrite ddp24_step_eq.
    destruct (halted cpu).
    - intros Heq. injection Heq as <- _. split; [auto | reflexivity].
    - destruct (execute (nested_call fuel') (fetched_opcode cpu) (fetched cpu)
                  (fetched_ea cpu)
                  (set_PC (Z.land (wrap32 (PC cpu + 1)) ADDR_MASK) cpu))
        as [[s n]|] eqn:Hex; intros Heq; [|discriminate Heq].
      injection Heq as <- _.
      apply (execute_flags _ _ _ _ _ _ _ Hnested) in Hex. exact Hex. }
  induction fuel as [|fuel IH]; apply Hone.
  - intros s s' n Hnone. discriminate Hnone.
  - exact IH.
Qed.

(** X16. No step clears [overflow] and no step touches
    [interrupt_enabled]: whatever the instruction, XEC chains included,
    a latched overflow is still latched when the step returns. *)
Theorem overflow_is_sticky fuel cpu cpu' c :
  ddp24_step fuel cpu = Some (cpu', c) ->
  (overflow cpu = true -> overflow cpu' = true) /\
  interrupt_enabled cpu' = interrupt_enabled cpu.
Proof. intros Hs. exact (step_flags fuel cpu cpu' c Hs). Qed.

Lemma overflow_is_sticky_witness :
  exists cpu',
    ddp24_step 2 (set_overflow true prog_xec_chain) = Some (cpu', 20) /\
    overflow cpu' = true.
Proof.
  destruct (proj2 (step_returns_iff 2 (set_overflow true prog_xec_chain)))
    as [[cpu' c] Hs]; [right; vm_compute; reflexivity|].
  assert (c = 20) as ->.
  { assert (option_map snd (ddp24_step 2 (set_overflow true prog_xec_chain))
            = Some 20) as Hc by (vm_compute; reflexivity).
    rewrite Hs in Hc. injection Hc as Hc. exact Hc. }
  exists cpu'. split; [exact Hs|].
  apply (overflow_is_sticky 2 (set_overflow true prog_xec_chain) cpu' 20 Hs).
  reflexivity.
Defined.

Lemma execute_one_word nested op instr ea cpu cpu' c :
  (forall s s' n, nested s = Some (s', n) -> one_word_written s s') ->
  execute nested op instr ea cpu = Some (cpu', c) ->
  one_word_written cpu cpu'.
Proof.
  intros Hnested. unfold execute, one_word_written.
  repeat case_match; intros [= <- <-]; subst;
    try (left; reflexivity);
    try (right; eexists _, _;
         split; [apply (fits_land_ones 15 ea); lia|];
         split; [apply fits_WORD | reflexivity]).
  match goal with
  | H : nested _ = Some _ |- _ => apply Hnested in H; exact H
  end.
Qed.

Lemma step_one_word fuel : forall cpu cpu' c,
  ddp24_step fuel cpu = Some (cpu', c) -> one_word_written cpu cpu'.
Proof.
  assert (forall fuel' : nat,
            (forall s s' n, nested_call fuel' s = Some (s', n) ->
               one_word_written s s') ->
            forall cpu cpu' c,
              ddp24_step fuel' cpu = Some (cpu', c) ->
              one_word_written cpu cpu') as Hone.
  { intros fuel' Hnested cpu cpu' c. rewrite ddp24_step_eq.
    destruct (halted cpu).
    - intros Heq. injection Heq as <- _. left. reflexivity.
    - destruct (execute (nested_call fuel') (fetched_opcode cpu) (fetched cpu)
                  (fetched_ea cpu)
                  (set_PC (Z.land (wrap32 (PC cpu + 1)) ADDR_MASK) cpu))
        as [[s n]|] eqn:Hex; intros Heq; [|discriminate Heq].
      injection Heq as <- _.
      apply (execute_one_word _ _ _ _ _ _ _ Hnested) in Hex. exact Hex. }
  induction fuel as [|fuel IH]; apply Hone.
  - intros s s' n Hnone. discriminate Hnone.
  - exact IH.
Qed.

(** X17. A step stores at most one word: when it returns, memory is
    either as it was or differs by one 24-bit value stored at one 15-bit
    address, and it has as many words as before.  This holds through
    XEC chains as well. *)
Theorem step_writes_one_word fuel cpu cpu' c :
  ddp24_step fuel cpu = Some (cpu', c) ->
  one_word_written cpu cpu' /\ length (memory cpu') = length (memory cpu).
Proof.
  intros Hs. pose proof (step_one_word fuel cpu cpu' c Hs) as Hw.
  split; [exact Hw|].
  destruct Hw as [-> | (addr & v & _ & _ & ->)]; [reflexivity|].
  apply length_insert.
Qed.

Lemma step_writes_one_word_witness :
  exists cpu' c,
    ddp24_step 0 prog_sta_lda = Some (cpu', c) /\
    one_word_written prog_sta_lda cpu'.
Proof.
  destruct (step_not_XEC_returns 0 prog_sta_lda) as [[cpu' c] Hs];
    [vm_compute; discriminate|].
  exists cpu', c. split; [exact Hs|].
  apply (step_writes_one_word 0 prog_sta_lda cpu' c Hs).
Defined.

Lemma execute_memory nested op instr ea cpu cpu' c :
  op <> OP_XEC -> op ∉ store_opcodes ->
  execute nested op instr ea cpu = Some (cpu', c) ->
  memory cpu' = memory cpu.
Proof.
  intros Hxec Hstore. unfold execute.
  repeat case_match; intros [= <- <-]; subst; try reflexivity;
    exfalso;
    match goal with
    | H : (op =? ?k) = true |- _ =>
        apply Z.eqb_eq in H;
        first [ apply Hxec; exact H
              | apply Hstore; rewrite H; unfold store_opcodes;
                repeat (first [apply list_elem_of_here
                              | apply list_elem_of_further]) ]
    end.
Qed.

(** X18. Only STA, STB, JSL and SIX (and what an XEC executes) write to
    memory: a step that fetches any other opcode, implemented or not,
    leaves every memory word as it was. *)
Theorem only_stores_write_memory fuel cpu cpu' c :
  fetched_opcode cpu <> OP_XEC -> fetched_opcode cpu ∉ store_opcodes ->
  ddp24_step fuel cpu = Some (cpu', c) ->
  memory cpu' = memory cpu.
Proof.
  intros Hxec Hstore. rewrite ddp24_step_eq. destruct (halted cpu).
  - intros Heq. injection Heq as <- _. reflexivity.
  - destruct (execute (nested_call fuel) (fetched_opcode cpu) (fetched cpu)
                (fetched_ea cpu)
                (set_PC (Z.land (wrap32 (PC cpu + 1)) ADDR_MASK) cpu))
      as [[s n]|] eqn:Hex; intros Heq; [|discriminate Heq].
    injection Heq as <- _.
    apply execute_memory in Hex; assumption.
Qed.

Lemma only_stores_write_memory_witness :
  exists cpu' c,
    ddp24_step 0 prog_mpy = Some (cpu', c) /\ memory cpu' = memory prog_mpy.
Proof.
  destruct (step_not_XEC_returns 0 prog_mpy) as [[cpu' c] Hs];
    [vm_compute; discriminate|].
  exists cpu', c. split; [exact Hs|].
  apply (only_stores_write_memory 0 prog_mpy cpu' c); [| |exact Hs].
  - vm_compute. discriminate.
  - unfold store_opcodes. rewrite !not_elem_of_cons.
    repeat split; try (vm_compute; discriminate).
    apply not_elem_of_nil.
Defined.

Lemma implemented_case op k :
  (op =? k) = true -> implemented k = true -> implemented op = true.
Proof. intros Heq Hk. apply Z.eqb_eq in Heq. rewrite Heq. exact Hk. Qed.

Lemma execute_halts nested op instr ea cpu cpu' c :
  op <> OP_XEC -> halted cpu = false ->
  execute nested op instr ea cpu = Some (cpu', c) ->
  halted cpu' = true <-> (op = OP_HLT \/ implemented op = false).
Proof.
  intros Hxec Hh.
  destruct (implemented op) eqn:Himpl.
  - unfold execute.
    repeat case_match; intros [= <- <-]; subst; fields;
      try (match goal with
           | H : (op =? OP_XEC) = true |- _ =>
               apply Z.eqb_eq in H; contradiction
           end);
      try (match goal with
           | H : (op =? OP_HLT) = true |- _ =>
               apply Z.eqb_eq in H;
               split; [intros _; left; exact H | reflexivity]
           end);
      try (match goal with
           | H : (op =? OP_HLT) = false |- _ =>
               apply Z.eqb_neq in H; rewrite Hh;
               split; [discriminate | intros [Hc|Hc]; [contradiction|discriminate]]
           end).
    exfalso. unfold implemented, implemented_opcodes in Himpl.
    cbn [existsb] in Himpl.
    repeat match goal with
           | H : (op =? _) = false |- _ => rewrite H in Himpl; clear H
           end.
    discriminate Himpl.
  - rewrite execute_default by exact Himpl. intros [= <- <-].
    split; [intros _; right; reflexivity | reflexivity].
Qed.

(** X19. Of the instructions a step dispatches itself, only HLT and the
    opcodes without a case halt the processor: a running processor that
    fetches anything but XEC is halted after the step exactly when the
    opcode is HLT or is not implemented. *)
Theorem only_HLT_and_faults_halt fuel cpu cpu' c :
  halted cpu = false -> fetched_opcode cpu <> OP_XEC ->
  ddp24_step fuel cpu = Some (cpu', c) ->
  halted cpu' = true <->
  (fetched_opcode cpu = OP_HLT \/ implemented (fetched_opcode cpu) = false).
Proof.
  intros Hh Hxec. rewrite step_running by exact Hh.
  destruct (execute (nested_call fuel) (fetched_opcode cpu) (fetched cpu)
              (fetched_ea cpu) (advance_PC cpu))
    as [[s n]|] eqn:Hex; intros Heq; [|discriminate Heq].
  injection Heq as <- _.
  apply execute_halts in Hex; [exact Hex | exact Hxec | exact Hh].
Qed.

Lemma only_HLT_and_faults_halt_witness :
  exists cpu' c,
    ddp24_step 0 prog_mpy = Some (cpu', c) /\ halted cpu' <> true.
Proof.
  destruct (step_not_XEC_returns 0 prog_mpy) as [[cpu' c] Hs];
    [vm_compute; discriminate|].
  exists cpu', c. split; [exact Hs|].
  intros Hhalt.
  apply (only_HLT_and_faults_halt 0 prog_mpy cpu' c) in Hhalt;
    [ | reflexivity | vm_compute; discriminate | exact Hs].
  destruct Hhalt as [Hc|Hc]; vm_compute in Hc; discriminate Hc.
Defined.

(** ** Cycle cost *)

Lemma execute_cost nested op instr ea cpu cpu' c :
  (forall s s' n, nested s = Some (s', n) -> 0 <= n) ->
  execute nested op instr ea cpu = Some (cpu', c) ->
  5 <= c /\ (op <> OP_XEC -> c <= 44).
Proof.
  intros Hnested. unfold execute.
  pose proof (shift_count_nonneg ea) as Hlo.
  assert (Z.land ea 0x1F < 32) as Hhi by (apply (fits_land_ones 5 ea); lia).
  repeat case_match; intros [= <- <-]; subst;
    try (split; [|intros _]; clear - Hlo Hhi; lia).
  match goal with
  | H : nested _ = Some _, E : (op =? OP_XEC) = true |- _ =>
      apply Hnested in H; apply Z.eqb_eq in E;
      split; [clear - H; lia | contradiction]
  end.
Qed.

Lemma step_cost fuel : forall cpu cpu' c,
  ddp24_step fuel cpu = Some (cpu', c) ->
  0 <= c /\ (halted cpu = false -> 5 <= c) /\
  (halted cpu = false -> fetched_opcode cpu <> OP_XEC -> c <= 44).
Proof.
  assert (forall fuel' : nat,
            (forall s s' n, nested_call fuel' s = Some (s', n) -> 0 <= n) ->
            forall cpu cpu' c,
              ddp24_step fuel' cpu = Some (cpu', c) ->
              0 <= c /\ (halted cpu = false -> 5 <= c) /\
              (halted cpu = false -> fetched_opcode cpu <> OP_XEC -> c <= 44))
    as Hone.
  { intros fuel' Hnested cpu cpu' c. rewrite ddp24_step_eq.
    destruct (halted cpu).
    - intros Heq. injection Heq as _ <-.
      split; [lia|]. split; discriminate.
    - destruct (execute (nested_call fuel') (fetched_opcode cpu) (fetched cpu)
                  (fetched_ea cpu)
                  (set_PC (Z.land (wrap32 (PC cpu + 1)) ADDR_MASK) cpu))
        as [[s n]|] eqn:Hex; intros Heq; [|discriminate Heq].
      injection Heq as _ <-.
      apply (execute_cost _ _ _ _ _ _ _ Hnested) in Hex.
      destruct Hex as [Hlo Hhi]. split; [lia|]. split; [intros _; exact Hlo|].
      intros _. exact Hhi. }
  induction fuel as [|fuel IH]; apply Hone.
  - intros s s' n Hnone. discriminate Hnone.
  - intros s s' n Hs. apply IH in Hs. apply Hs.
Qed.

(** X20. Every step of a running processor costs at least 5 cycles, and
    at most 44 unless it fetches XEC (whose cost is 5 plus that of the
    step it nests); a halted processor costs 0. *)
Theorem step_cost_bounds fuel cpu cpu' c :
  ddp24_step fuel cpu = Some (cpu', c) ->
  (halted cpu = true -> c = 0) /\
  (halted cpu = false -> 5 <= c) /\
  (halted cpu = false -> fetched_opcode cpu <> OP_XEC -> c <= 44).
Proof.
  intros Hs. split.
  - intros Hh. rewrite step_halted in Hs by exact Hh.
    injection Hs as _ <-. reflexivity.
  - apply (step_cost fuel cpu cpu' c Hs).
Qed.

Lemma step_cost_bounds_witness :
  exists cpu', ddp24_step 2 prog_xec_chain = Some (cpu', 20) /\ 5 <= 20.
Proof.
  destruct (proj2 (step_returns_iff 2 prog_xec_chain))
    as [[cpu' c] Hs]; [right; vm_compute; reflexivity|].
  assert (c = 20) as ->.
  { assert (option_map snd (ddp24_step 2 prog_xec_chain) = Some 20) as Hc
      by (vm_compute; reflexivity).
    rewrite Hs in Hc. injection Hc as Hc. exact Hc. }
  exists cpu'. split; [exact Hs|].
  destruct (step_cost_bounds 2 prog_xec_chain cpu' 20 Hs) as (_ & Hlo & _).
  apply Hlo. reflexivity.
Defined.

(** ** Run *)

Lemma run_loop_stop n fuel cpu max_cycles total :
  negb (halted cpu) && ((max_cycles <=? 0) || (total <? max_cycles)) = false ->
  run_loop n fuel cpu max_cycles total = Some (cpu, total).
Proof. intros Hc. destruct n; cbn [run_loop]; rewrite Hc; reflexivity. Qed.

Lemma run_loop_go n fuel cpu max_cycles total :
  negb (halted cpu) && ((max_cycles <=? 0) || (total <? max_cycles)) = true ->
  run_loop (S n) fuel cpu max_cycles total =
  match ddp24_step fuel cpu with
  | Some (cpu', c) => run_loop n fuel cpu' max_cycles (total + c)
  | None => None
  end.
Proof. intros Hc. cbn [run_loop]. rewrite Hc. reflexivity. Qed.

Lemma run_loop_out fuel cpu max_cycles total :
  negb (halted cpu) && ((max_cycles <=? 0) || (total <? max_cycles)) = true ->
  run_loop 0 fuel cpu max_cycles total = None.
Proof. intros Hc. cbn [run_loop]. rewrite Hc. reflexivity. Qed.

Lemma run_loop_post n fuel max_cycles : forall cpu total cpu' t,
  run_loop n fuel cpu max_cycles total = Some (cpu', t) ->
  total <= t /\
  (halted cpu' = true \/ (0 < max_cycles /\ max_cycles <= t)).
Proof.
  induction n as [|n IH]; intros cpu total cpu' t;
    destruct (negb (halted cpu)
              && ((max_cycles <=? 0) || (total <? max_cycles))) eqn:Hc.
  - rewrite run_loop_out by exact Hc. discriminate.
  - rewrite run_loop_stop by exact Hc. intros [= <- <-].
    split; [lia|]. apply andb_false_iff in Hc. destruct Hc as [Hc|Hc].
    + left. destruct (halted cpu); [reflexivity | discriminate].
    + right. apply orb_false_iff in Hc. destruct Hc as [H1 H2].
      apply Z.leb_gt in H1. apply Z.ltb_ge in H2. lia.
  - rewrite run_loop_go by exact Hc.
    destruct (ddp24_step fuel cpu) as [[s c]|] eqn:Hs; [|discriminate].
    intros Hr. apply IH in Hr. destruct Hr as [Hle Hpost].
    pose proof (step_cost fuel cpu s c Hs) as [Hc0 _].
    split; [lia | exact Hpost].
  - rewrite run_loop_stop by exact Hc. intros [= <- <-].
    split; [lia|]. apply andb_false_iff in Hc. destruct Hc as [Hc|Hc].
    + left. destruct (halted cpu); [reflexivity | discriminate].
    + right. apply orb_false_iff in Hc. destruct Hc as [H1 H2].
      apply Z.leb_gt in H1. apply Z.ltb_ge in H2. lia.
Qed.


Lemma run_returns_sample :
  is_Some (ddp24_run 3 0 prog_load_store 0).
Proof.
  assert (option_map snd (ddp24_run 3 0 prog_load_store 0) = Some 25) as Hc
    by (vm_compute; reflexivity).
  destruct (ddp24_run 3 0 prog_load_store 0) as [r|]; [eexists; reflexivity|].
  discriminate Hc.
Qed.


Lemma iterations_left_pos max_cycles total :
  total < max_cycles -> (0 < iterations_left max_cycles total)%nat.
Proof.
  intros Hlt. unfold iterations_left.
  assert (1 <= (max_cycles - total + 4) / 5)
    by (apply Z.div_le_lower_bound; lia).
  lia.
Qed.

Lemma iterations_left_step max_cycles total c :
  total < max_cycles -> 5 <= c ->
  (S (iterations_left max_cycles (total + c))
   <= iterations_left max_cycles total)%nat.
Proof.
  intros Hlt Hc. unfold iterations_left.
  assert (1 <= (max_cycles - total + 4) / 5)
    by (apply Z.div_le_lower_bound; lia).
  assert ((max_cycles - (total + c) + 4) / 5
          <= (max_cycles - total + 4) / 5 - 1).
  { replace ((max_cycles - total + 4) / 5 - 1)
      with ((max_cycles - total + 4 + (-1) * 5) / 5)
      by (rewrite Z.div_add by lia; lia).
    apply Z.div_le_mono; lia. }
  lia.
Qed.

Lemma run_loop_enough fuel max_cycles :
  0 < max_cycles ->
  forall n m cpu total,
    (iterations_left max_cycles total <= n)%nat ->
    (iterations_left max_cycles total <= m)%nat ->
    run_loop n fuel cpu max_cycles total = run_loop m fuel cpu max_cycles total.
Proof.
  intros Hmax. induction n as [|n IH]; intros m cpu total Hn Hm;
    destruct (negb (halted cpu)
              && ((max_cycles <=? 0) || (total <? max_cycles))) eqn:Hc;
    try (rewrite !run_loop_stop by exact Hc; reflexivity).
  - exfalso. apply andb_true_iff in Hc. destruct Hc as [_ Hc].
    apply orb_true_iff in Hc. destruct Hc as [Hc|Hc];
      [apply Z.leb_le in Hc; lia|]. apply Z.ltb_lt in Hc.
    pose proof (iterations_left_pos max_cycles total Hc). lia.
  - pose proof Hc as Hc'. apply andb_true_iff in Hc'.
    destruct Hc' as [Hrun Hlt]. apply orb_true_iff in Hlt.
    destruct Hlt as [Hlt|Hlt]; [apply Z.leb_le in Hlt; lia|].
    apply Z.ltb_lt in Hlt.
    pose proof (iterations_left_pos max_cycles total Hlt) as Hpos.
    destruct m as [|m]; [lia|].
    rewrite !run_loop_go by exact Hc.
    destruct (ddp24_step fuel cpu) as [[s c]|] eqn:Hs; [|reflexivity].
    assert (5 <= c) as Hcost.
    { apply (step_cost fuel cpu s c Hs).
      destruct (halted cpu); [discriminate | reflexivity]. }
    pose proof (iterations_left_step max_cycles total c Hlt Hcost).
    apply IH; lia.
Qed.



(** More of either budget does not change what a run returns. *)
Lemma run_loop_mono fuel fuel' max_cycles :
  (fuel <= fuel')%nat ->
  forall n n' cpu total r,
    (n <= n')%nat ->
    run_loop n fuel cpu max_cycles total = Some r ->
    run_loop n' fuel' cpu max_cycles total = Some r.
Proof.
  intros Hfuel. induction n as [|n IH]; intros n' cpu total r Hn;
    destruct (negb (halted cpu)
              && ((max_cycles <=? 0) || (total <? max_cycles))) eqn:Hc;
    try (rewrite !run_loop_stop by exact Hc; auto).
  - rewrite run_loop_out by exact Hc. discriminate.
  - destruct n' as [|n']; [lia|]. rewrite !run_loop_go by exact Hc.
    destruct (ddp24_step fuel cpu) as [[s c]|] eqn:Hs; [|discriminate].
    rewrite (step_fuel_mono fuel fuel' cpu (s, c) Hfuel Hs).
    apply IH. lia.
Qed.

Lemma run_loop_reachable n fuel max_cycles : forall cpu total cpu' t,
  reachable cpu ->
  run_loop n fuel cpu max_cycles total = Some (cpu', t) ->
  reachable cpu'.
Proof.
  induction n as [|n IH]; intros cpu total cpu' t Hreach;
    destruct (negb (halted cpu)
              && ((max_cycles <=? 0) || (total <? max_cycles))) eqn:Hc;
    try (rewrite run_loop_stop by exact Hc; intros [= <- <-]; exact Hreach).
  - rewrite run_loop_out by exact Hc. discriminate.
  - rewrite run_loop_go by exact Hc.
    destruct (ddp24_step fuel cpu) as [[s c]|] eqn:Hs; [|discriminate].
    apply IH. exact (reach_step cpu fuel s c Hreach Hs).
Qed.

(** X23. A run keeps the machine-width invariant: from a reachable
    processor, the processor [ddp24_run] returns has A, B and every
    memory word within 24 bits, PC and X[1..3] within 15 bits, and
    X[0] = 0. *)
Theorem run_keeps_machine_width n fuel cpu max_cycles cpu' total :
  reachable cpu ->
  ddp24_run n fuel cpu max_cycles = Some (cpu', total) ->
  machine_width cpu'.
Proof.
  intros Hreach Hr. apply wf_machine_width, wf_reachable.
  exact (run_loop_reachable n fuel max_cycles cpu 0 cpu' total Hreach Hr).
Qed.

Lemma run_keeps_machine_width_witness :
  exists cpu' total,
    ddp24_run 3 0 prog_load_store 0 = Some (cpu', total) /\
    machine_width cpu'.
Proof.
  destruct run_returns_sample as [[cpu' total] Hr].
  exists cpu', total. split; [exact Hr|].
  apply (run_keeps_machine_width 3 0 prog_load_store 0 cpu' total);
    [|exact Hr].
  unfold prog_load_store, load_words. cbn [fold_left fst snd].
  repeat apply reach_write. apply reach_init.
Defined.

(** ** The built-in tests *)

Lemma run_test_passes n fuel cpu (pass : ddp24_t -> bool) counts :
  (4 <= n)%nat ->
  option_map (fun r => pass (fst r)) (ddp24_run 4 0 cpu 100) = Some true ->
  run_test n fuel cpu pass counts = Some (fst counts + 1, snd counts).
Proof.
  intros Hn Hpass. unfold run_test.
  destruct (ddp24_run 4 0 cpu 100) as [[s t]|] eqn:Hr; [|discriminate Hpass].
  cbn [option_map fst] in Hpass. injection Hpass as Hpass.
  unfold ddp24_run in *.
  rewrite (run_loop_mono 0 fuel 100 ltac:(lia) 4 n cpu 0 (s, t) Hn Hr).
  rewrite Hpass. reflexivity.
Qed.

(** X24. The built-in tests pass on this model of the processor:
    [run_tests] returns 0 failed tests, whatever the budgets of the
    model, provided each run may make the four iterations it needs. *)
Theorem run_tests_all_pass n fuel :
  (4 <= n)%nat -> run_tests n fuel = Some 0.
Proof.
  intros Hn. unfold run_tests.
  repeat (erewrite run_test_passes;
          [cbn [mbind option_bind fst snd]
          | exact Hn | vm_compute; reflexivity]).
  reflexivity.
Qed.

Lemma run_tests_all_pass_witness : run_tests 100 0 = Some 0.
Proof. apply (run_tests_all_pass 100 0). lia. Defined.

(** ** Loading an image *)

Lemma byte_val_range b : 0 <= byte_val b < 256.
Proof.
  unfold byte_val. pose proof (Byte.to_N_bounded b) as Hb. lia.
Qed.

Lemma load_word_value b0 b1 b2 :
  load_word b0 b1 b2 = byte_val b0 * 65536 + byte_val b1 * 256 + byte_val b2.
Proof.
  unfold load_word.
  pose proof (byte_val_range b0). pose proof (byte_val_range b1).
  pose proof (byte_val_range b2).
  change 16 with (8 + 8). rewrite <- Z.shiftl_shiftl by lia.
  rewrite <- Z.shiftl_lor.
  rewrite (lor_shiftl_add (byte_val b0) (byte_val b1) 8)
    by (unfold fits; lia).
  rewrite lor_shiftl_add by (unfold fits; lia).
  change (2 ^ 8) with 256. lia.
Qed.

Lemma load_word_fits b0 b1 b2 : fits 24 (load_word b0 b1 b2).
Proof.
  rewrite load_word_value.
  pose proof (byte_val_range b0). pose proof (byte_val_range b1).
  pose proof (byte_val_range b2). unfold fits. lia.
Qed.

(** Induction over an image three bytes at a time. *)
Lemma image_ind (P : list Byte.byte -> Prop) :
  P [] -> (forall b, P [b]) -> (forall b c, P [b; c]) ->
  (forall b0 b1 b2 rest, P rest -> P (b0 :: b1 :: b2 :: rest)) ->
  forall bytes, P bytes.
Proof.
  intros H0 H1 H2 H3. fix IH 1.
  intros [|b0 [|b1 [|b2 rest]]].
  - exact H0.
  - apply H1.
  - apply H2.
  - apply H3, IH.
Qed.

Lemma words_of_cons3 (b0 b1 b2 : Byte.byte) rest :
  Z.of_nat (length (b0 :: b1 :: b2 :: rest)) / 3
  = 1 + Z.of_nat (length rest) / 3.
Proof.
  cbn [length]. rewrite !Nat2Z.inj_succ.
  replace (Z.succ (Z.succ (Z.succ (Z.of_nat (length rest)))))
    with (1 * 3 + Z.of_nat (length rest)) by lia.
  rewrite Z.div_add_l by lia. reflexivity.
Qed.

Lemma load_loop_count bytes : forall addr mem,
  0 <= addr <= MEM_SIZE ->
  fst (load_loop bytes addr mem)
  = Z.min (addr + Z.of_nat (length bytes) / 3) MEM_SIZE.
Proof.
  induction bytes as [|b|b c|b0 b1 b2 rest IH] using image_ind;
    intros addr mem Haddr;
    try (cbn [load_loop fst length]; change (Z.of_nat _ / 3) with 0; lia).
  rewrite words_of_cons3. cbn [load_loop].
  pose proof (Z.div_pos (Z.of_nat (length rest)) 3 ltac:(lia) ltac:(lia)).
  destruct (Z.ltb_spec addr MEM_SIZE) as [Hlt|Hge].
  - rewrite IH by lia. lia.
  - cbn [fst]. lia.
Qed.

Lemma load_loop_length bytes : forall addr mem,
  length (snd (load_loop bytes addr mem)) = length mem.
Proof.
  induction bytes as [|b|b c|b0 b1 b2 rest IH] using image_ind;
    intros addr mem; try reflexivity.
  cbn [load_loop]. destruct (addr <? MEM_SIZE); [|reflexivity].
  rewrite IH. apply length_insert.
Qed.

Lemma load_loop_Forall (P : Z -> Prop) bytes : forall addr mem,
  (forall b0 b1 b2, P (load_word b0 b1 b2)) ->
  Forall P mem -> Forall P (snd (load_loop bytes addr mem)).
Proof.
  induction bytes as [|b|b c|b0 b1 b2 rest IH] using image_ind;
    intros addr mem HP Hmem; try exact Hmem.
  cbn [load_loop]. destruct (addr <? MEM_SIZE); [|exact Hmem].
  apply IH; [exact HP|]. apply Forall_insert; [exact Hmem | apply HP].
Qed.

(** X25. [ddp24_load] returns -1 and leaves the processor alone when the
    file cannot be opened; otherwise it returns the number of words it
    stored, which is the number of complete three-byte groups of the
    file, capped at 32768 (a short final group is dropped). *)
Theorem load_count cpu bytes :
  ddp24_load cpu None = (cpu, -1) /\
  snd (ddp24_load cpu (Some bytes))
  = Z.min (Z.of_nat (length bytes) / 3) MEM_SIZE.
Proof.
  split; [reflexivity|]. unfold ddp24_load.
  pose proof (load_loop_count bytes 0 (memory cpu)) as Hc.
  destruct (load_loop bytes 0 (memory cpu)) as [addr mem].
  cbn [fst snd] in *. apply Hc. unfold MEM_SIZE. lia.
Qed.

Lemma wf_load cpu file : wf cpu -> wf (fst (ddp24_load cpu file)).
Proof.
  intros Hwf. destruct file as [bytes|]; [|exact Hwf].
  unfold ddp24_load.
  pose proof (load_loop_length bytes 0 (memory cpu)) as Hlen.
  pose proof (load_loop_Forall (fits 24) bytes 0 (memory cpu)
                load_word_fits (wf_memory cpu Hwf)) as Hall.
  destruct (load_loop bytes 0 (memory cpu)) as [addr mem].
  cbn [fst snd] in *. destruct Hwf.
  constructor; fields; try assumption. congruence.
Qed.

(** X26. Loading keeps the machine-width invariant: after [ddp24_load]
    into a reachable processor, whatever the file, every memory word is
    within 24 bits and the registers are as the invariant wants them. *)
Theorem load_keeps_machine_width cpu file :
  reachable cpu -> machine_width (fst (ddp24_load cpu file)).
Proof.
  intros Hreach. apply wf_machine_width, wf_load, wf_reachable, Hreach.
Qed.

Lemma load_keeps_machine_width_witness :
  machine_width (fst (ddp24_load ddp24_init (Some sample_image))).
Proof.
  apply (load_keeps_machine_width ddp24_init (Some sample_image)).
  apply reach_init.
Defined.

Lemma image_word_0 (b0 b1 b2 : Byte.byte) rest :
  image_word (b0 :: b1 :: b2 :: rest) 0 = Some (load_word b0 b1 b2).
Proof. unfold image_word. cbn. rewrite load_word_value. reflexivity. Qed.

Lemma image_word_S (b0 b1 b2 : Byte.byte) rest i :
  image_word (b0 :: b1 :: b2 :: rest) (S i) = image_word rest i.
Proof.
  unfold image_word.
  replace (3 * S i)%nat with (S (S (S (3 * i)))) by lia.
  reflexivity.
Qed.

Lemma load_loop_contents bytes : forall addr mem (j : nat),
  0 <= addr <= MEM_SIZE ->
  (addr <= Z.of_nat j < fst (load_loop bytes addr mem) ->
   (j < length mem)%nat ->
   snd (load_loop bytes addr mem) !! j
   = image_word bytes (j - Z.to_nat addr)) /\
  (Z.of_nat j < addr \/ fst (load_loop bytes addr mem) <= Z.of_nat j ->
   snd (load_loop bytes addr mem) !! j = mem !! j).
Proof.
  induction bytes as [|b|b c|b0 b1 b2 rest IH] using image_ind;
    intros addr mem j Haddr;
    try (cbn [load_loop fst snd]; split; [lia | reflexivity]).
  cbn [load_loop]. destruct (Z.ltb_spec addr MEM_SIZE) as [Hlt|Hge];
    [|cbn [fst snd]; split; [lia | reflexivity]].
  pose proof (load_loop_count rest (addr + 1)
                (upd mem addr (load_word b0 b1 b2)) ltac:(lia)) as Hcount.
  pose proof (Z.div_pos (Z.of_nat (length rest)) 3 ltac:(lia) ltac:(lia)).
  destruct (IH (addr + 1) (upd mem addr (load_word b0 b1 b2)) j ltac:(lia))
    as [IH1 IH2].
  split.
  - intros Hj Hlen. destruct (Z.eq_dec (Z.of_nat j) addr) as [Heq|Hne].
    + rewrite IH2 by lia. unfold upd.
      replace (Z.to_nat addr) with j by lia.
      rewrite list_lookup_insert_eq by exact Hlen.
      replace (j - j)%nat with 0%nat by lia.
      rewrite image_word_0. reflexivity.
    + rewrite IH1; [|lia|unfold upd; rewrite length_insert; exact Hlen].
      replace (j - Z.to_nat addr)%nat
        with (S (j - Z.to_nat (addr + 1))) by lia.
      rewrite image_word_S. reflexivity.
  - intros Hj. rewrite IH2 by lia. unfold upd.
    apply list_lookup_insert_ne. lia.
Qed.

(** X27. What [ddp24_load] stores: with [n] the count it returns, memory
    word [i] for [i < n] is bytes 3i, 3i+1, 3i+2 of the file read as a
    big-endian 24-bit number, and every word from [n] on is as it was;
    the registers, PC, flags and cycle counter are not touched. *)
Theorem load_contents cpu bytes (i : nat) :
  length (memory cpu) = Z.to_nat MEM_SIZE ->
  let r := ddp24_load cpu (Some bytes) in
  (Z.of_nat i < snd r -> memory (fst r) !! i = image_word bytes i) /\
  (snd r <= Z.of_nat i -> memory (fst r) !! i = memory cpu !! i) /\
  fst r = set_memory (memory (fst r)) cpu.
Proof.
  intros Hlen r.
  pose proof (load_loop_count bytes 0 (memory cpu)) as Hcount.
  pose proof (load_loop_contents bytes 0 (memory cpu) i) as Hcont.
  unfold r, ddp24_load.
  destruct (load_loop bytes 0 (memory cpu)) as [addr mem].
  cbn [fst snd] in *. fields.
  specialize (Hcount ltac:(unfold MEM_SIZE; lia)).
  destruct Hcont as [H1 H2]; [unfold MEM_SIZE; lia|].
  split; [|split; [|reflexivity]].
  - intros Hi. rewrite H1; [f_equal; lia | lia |].
    rewrite Hlen. apply Nat2Z.inj_lt. rewrite Z2Nat.id by (unfold MEM_SIZE; lia).
    lia.
  - intros Hi. apply H2. right. exact Hi.
Qed.

Lemma load_contents_witness :
  memory (fst (ddp24_load ddp24_init (Some sample_image))) !! 1%nat
  = Some 0xABCDEF /\
  memory (fst (ddp24_load ddp24_init (Some sample_image))) !! 3%nat
  = Some 0.
Proof.
  destruct (load_contents ddp24_init sample_image 1) as (H1 & _);
    [apply length_replicate|].
  destruct (load_contents ddp24_init sample_image 3) as (_ & H3 & _);
    [apply length_replicate|].
  split.
  - rewrite H1; [reflexivity | vm_compute; reflexivity].
  - rewrite H3; [reflexivity | vm_compute; discriminate].
Defined.

(** ** Multiply, then divide *)

Lemma step_MPY_fields fuel cpu :
  halted cpu = false -> fetched_opcode cpu = OP_MPY ->
  let operand := ddp24_read cpu (fetched_ea cpu) in
  let product :=
    Z.land (B cpu) MAGNITUDE_MASK * Z.land operand MAGNITUDE_MASK in
  let sign :=
    if xorb (sign_set (B cpu)) (sign_set operand) && negb (product =? 0)
    then SIGN_BIT else 0 in
  exists cpu1,
    ddp24_step fuel cpu = Some (cpu1, 28) /\
    halted cpu1 = false /\ overflow cpu1 = overflow cpu /\
    A cpu1 = sign + product / 2 ^ 23 /\
    B cpu1 = sign + product mod 2 ^ 23 /\
    memory cpu1 = memory cpu /\ X cpu1 = X cpu /\
    PC cpu1 = PC (advance_PC cpu).
Proof.
  intros Hh Hop operand product sign.
  rewrite step_running, Hop by assumption.
  pose proof (execute_MPY (nested_call fuel) (fetched cpu) (fetched_ea cpu)
                (advance_PC cpu)) as Hex.
  cbv zeta in Hex.
  change (ddp24_read (advance_PC cpu) (fetched_ea cpu)) with operand in Hex.
  change (B (advance_PC cpu)) with (B cpu) in Hex.
  fold product in Hex. fold sign in Hex. rewrite Hex.
  eexists. split; [reflexivity|]. fields.
  split; [exact Hh|]. repeat split; reflexivity.
Qed.

Lemma step_DIV_fields fuel cpu :
  halted cpu = false -> fetched_opcode cpu = OP_DIV ->
  Z.land (A cpu) MAGNITUDE_MASK
    < Z.land (ddp24_read cpu (fetched_ea cpu)) MAGNITUDE_MASK ->
  let operand := ddp24_read cpu (fetched_ea cpu) in
  let d := Z.land operand MAGNITUDE_MASK in
  let dividend :=
    Z.land (A cpu) MAGNITUDE_MASK * 2 ^ 23 + Z.land (B cpu) MAGNITUDE_MASK in
  let qsign :=
    xorb (sign_set (A cpu)) (sign_set operand)
    && negb (dividend / d =? 0) in
  let rsign := sign_set (A cpu) && negb (dividend mod d =? 0) in
  exists cpu',
    ddp24_step fuel cpu = Some (cpu', 44) /\
    overflow cpu' = overflow cpu /\
    A cpu' = (if rsign then SIGN_BIT else 0) + dividend mod d /\
    B cpu' = (if qsign then SIGN_BIT else 0) + dividend / d.
Proof.
  intros Hh Hop Hlt operand d dividend qsign rsign.
  rewrite step_running, Hop by assumption.
  pose proof (execute_DIV_proper (nested_call fuel) (fetched cpu)
                (fetched_ea cpu) (advance_PC cpu)) as Hex.
  cbv zeta in Hex.
  change (ddp24_read (advance_PC cpu) (fetched_ea cpu)) with operand in Hex.
  change (A (advance_PC cpu)) with (A cpu) in Hex.
  change (B (advance_PC cpu)) with (B cpu) in Hex.
  fold d in Hex. fold dividend in Hex. fold qsign in Hex. fold rsign in Hex.
  rewrite Hex by (apply Z.leb_gt; exact Hlt).
  eexists. split; [reflexivity|]. fields. repeat split; reflexivity.
Qed.

(** X28. MPY followed by DIV by the same operand of non-zero magnitude:
    the divide is proper, the quotient gives B its magnitude back, with
    its sign unless that magnitude is zero, the remainder leaves A = 0,
    and [overflow] is untouched. *)
Theorem MPY_then_DIV fuel cpu cpu1 c1 :
  halted cpu = false -> fetched_opcode cpu = OP_MPY ->
  ddp24_step fuel cpu = Some (cpu1, c1) ->
  fetched_opcode cpu1 = OP_DIV ->
  ddp24_read cpu1 (fetched_ea cpu1) = ddp24_read cpu (fetched_ea cpu) ->
  Z.land (ddp24_read cpu (fetched_ea cpu)) MAGNITUDE_MASK <> 0 ->
  exists cpu2,
    ddp24_step fuel cpu1 = Some (cpu2, 44) /\
    Z.land (B cpu2) MAGNITUDE_MASK = Z.land (B cpu) MAGNITUDE_MASK /\
    sign_set (B cpu2)
      = sign_set (B cpu) && negb (Z.land (B cpu) MAGNITUDE_MASK =? 0) /\
    A cpu2 = 0 /\ overflow cpu2 = overflow cpu.
Proof.
  intros Hh Hop Hs Hop1 Hoperand Hy.
  destruct (step_MPY_fields fuel cpu Hh Hop)
    as (s & Hs' & Hh1 & Ho1 & HA1 & HB1 & _).
  rewrite Hs in Hs'. injection Hs' as <- _.
  set (y := Z.land (ddp24_read cpu (fetched_ea cpu)) MAGNITUDE_MASK) in *.
  set (b := Z.land (B cpu) MAGNITUDE_MASK) in *.
  set (neg := xorb (sign_set (B cpu))
                (sign_set (ddp24_read cpu (fetched_ea cpu)))
              && negb (b * y =? 0)) in *.
  assert (fits 23 y) as Hyf by apply fits_MAG.
  assert (fits 23 b) as Hbf by apply fits_MAG.
  assert (0 < y) as Hypos by (unfold fits in Hyf; lia).
  assert (fits 23 (b * y / 2 ^ 23)) as Hhi.
  { unfold fits in *. split; [apply Z.div_pos; nia|].
    apply Z.div_lt_upper_bound; nia. }
  assert (fits 23 ((b * y) mod 2 ^ 23)) as Hlo
    by (unfold fits; apply Z.mod_pos_bound; lia).
  assert (Z.land (A cpu1) MAGNITUDE_MASK = b * y / 2 ^ 23) as Ha1
    by (rewrite HA1; apply sm_magnitude, Hhi).
  assert (Z.land (B cpu1) MAGNITUDE_MASK = (b * y) mod 2 ^ 23) as Hb1
    by (rewrite HB1; apply sm_magnitude, Hlo).
  assert (sign_set (A cpu1) = neg) as Hsa1
    by (rewrite HA1; apply sm_sign, Hhi).
  assert (Z.land (A cpu1) MAGNITUDE_MASK * 2 ^ 23
          + Z.land (B cpu1) MAGNITUDE_MASK = b * y) as Hdividend.
  { rewrite Ha1, Hb1. pose proof (Z.div_mod (b * y) (2 ^ 23)). lia. }
  destruct (step_DIV_fields fuel cpu1 Hh1 Hop1)
    as (cpu2 & Hs2 & Ho2 & HA2 & HB2).
  { rewrite Hoperand, Ha1. fold y.
    apply Z.div_lt_upper_bound; [lia|]. unfold fits in Hbf. nia. }
  rewrite Hoperand in HA2, HB2. fold y in HA2, HB2.
  rewrite Hdividend, Hsa1 in HA2, HB2.
  rewrite Z.mod_mul in HA2 by lia. rewrite Z.div_mul in HB2 by lia.
  rewrite Z.eqb_refl, andb_false_r in HA2.
  exists cpu2. split; [exact Hs2|].
  rewrite HB2, sm_magnitude, sm_sign by exact Hbf.
  split; [reflexivity|]. split; [|split; [exact HA2 | congruence]].
  unfold neg. destruct (Z.eqb_spec b 0) as [Hb0|Hb0].
  - rewrite !andb_false_r. reflexivity.
  - assert ((b * y =? 0) = false) as -> by (apply Z.eqb_neq; nia).
    cbn [negb]. rewrite !andb_true_r.
    destruct (sign_set (B cpu)),
      (sign_set (ddp24_read cpu (fetched_ea cpu))); reflexivity.
Qed.

Lemma MPY_then_DIV_witness :
  exists cpu1 cpu2,
    ddp24_step 0 prog_mpy_div = Some (cpu1, 28) /\
    ddp24_step 0 cpu1 = Some (cpu2, 44) /\
    Z.land (B cpu2) MAGNITUDE_MASK = 1234 /\ sign_set (B cpu2) = true /\
    A cpu2 = 0.
Proof.
  destruct (step_MPY_fields 0 prog_mpy_div)
    as (cpu1 & Hs & _ & _ & _ & _ & Hmem & HX & HPC);
    [reflexivity | reflexivity |].
  assert (fetched cpu1 = instr_word OP_DIV 0x100) as Hf.
  { unfold fetched, ddp24_read. rewrite Hmem, HPC. reflexivity. }
  assert (fetched_ea cpu1 = 0x100) as Hea.
  { unfold fetched_ea. rewrite Hf. reflexivity. }
  destruct (MPY_then_DIV 0 prog_mpy_div cpu1 28)
    as (cpu2 & Hs2 & Hmag & Hsign & HA & _);
    [reflexivity | reflexivity | exact Hs
    | unfold fetched_opcode; rewrite Hf; reflexivity
    | rewrite Hea; unfold ddp24_read; rewrite Hmem; reflexivity
    | vm_compute; discriminate |].
  exists cpu1, cpu2. repeat split; assumption.
Defined.

(** ** Cycle accounting outside XEC *)

(** X29. For every instruction a step dispatches itself (anything but
    XEC), the value returned is what the cycle counter gains, modulo
    2^64; a halted step returns 0 and leaves the counter alone. *)
Theorem cycles_accounting_direct fuel cpu cpu' c :
  fetched_opcode cpu <> OP_XEC ->
  ddp24_step fuel cpu = Some (cpu', c) ->
  (halted cpu = false -> cycles cpu' = wrap64 (cycles cpu + c)) /\
  (halted cpu = true -> c = 0 /\ cycles cpu' = cycles cpu).
Proof.
  intros Hop Hs. split; intros Hh.
  - exact (step_cycles_direct fuel cpu cpu' c Hh Hop Hs).
  - rewrite step_halted in Hs by exact Hh. injection Hs as <- <-.
    split; reflexivity.
Qed.

Lemma cycles_accounting_direct_witness :
  exists cpu' c,
    ddp24_step 0 prog_mpy = Some (cpu', c) /\
    cycles cpu' = wrap64 (cycles prog_mpy + c).
Proof.
  destruct (step_not_XEC_returns 0 prog_mpy) as [[cpu' c] Hs];
    [vm_compute; discriminate|].
  exists cpu', c. split; [exact Hs|].
  destruct (cycles_accounting_direct 0 prog_mpy cpu' c) as [Hrun _];
    [vm_compute; discriminate | exact Hs |].
  apply Hrun. reflexivity.
Defined.
